(** * Numbrle: the puzzle engine of [src/game.ts] and, from [src/App.tsx],
      the statistics update, [keyStates], [submitGuess] and [handleKey],
      embedded in Rocq.

    Conventions of the embedding.

    - A JavaScript string is the list of its UTF-16 code units ([str]).  All
      characters the game knows ([0-9 + - × ÷ =]) are single code units, and
      [s.length], [s.split('')], [s.charCodeAt(i)] work on code units.
    - A JavaScript number is a mathematical integer ([Z]).  Every operation
      of the engine ([+], [-], [*], exact [/], [%]) is exact on IEEE doubles
      as long as the values stay below 2^53 in magnitude, which is the case
      for every equation of the game (at most five characters on the left
      side); [prev / num] followed by [Number.isInteger] is the test
      [num | prev] together with the exact quotient.  [String(n)] is the
      plain decimal notation of [n], as JavaScript prints every integer of
      that size.  Theorems about [evaluate] on arbitrary expressions carry
      the bound [SafeExpr] (at most 15 characters), inside which the model
      and the doubles of the source agree.
    - [null] is [None]; [undefined], the value of an array read out of
      range, is the [None] of a list lookup.
    - A loop that may [return] early is the first of its iterations that
      returns ([firstOf]); statements in sequence are tried in order
      ([or_else]). *)

From Stdlib Require Import ZArith Lia Bool String Ascii.
From stdpp Require Import base tactics option list gmap.

Local Open Scope Z_scope.

(** ** Strings *)

Abbreviation str := (list Z).

(** Literals: a Rocq string holds the UTF-8 bytes of the source text;
    [decode] turns its one- and two-byte sequences into code units, and
    [js "6×7"] is the JavaScript string ['6×7'], decoded where it is
    written. *)
Fixpoint decode (s : string) : str :=
  match s with
  | EmptyString => []
  | String a rest =>
      let x := Z.of_N (N_of_ascii a) in
      if x <? 128 then x :: decode rest
      else match rest with
           | String b rest' =>
               ((x mod 32) * 64 + Z.of_N (N_of_ascii b) mod 64)
                 :: decode rest'
           | EmptyString => [x]
           end
  end.

Notation "'js' s" :=
  (ltac:(let v := eval vm_compute in (decode s%string) in exact v))
  (at level 10, s at level 0, only parsing).

(** [a === b] on strings. *)
Fixpoint streq (a b : str) : bool :=
  match a, b with
  | [], [] => true
  | x :: a', y :: b' => (x =? y) && streq a' b'
  | _, _ => false
  end.

(** [s.includes(ch)] for a one-unit [ch]. *)
Definition includes (s : str) (ch : Z) : bool := existsb (Z.eqb ch) s.

(** [ch >= '0' && ch <= '9'] *)
Definition isDigit (ch : Z) : bool := (48 <=? ch) && (ch <=? 57).

(** [Number(s)] for a run of decimal digits [s]. *)
Definition Number_digits (s : str) : Z :=
  fold_left (fun acc ch => acc * 10 + (ch - 48)) s 0.

(** [String(n)] for an integer [n]: the decimal digits, least significant
    first, then reversed; a minus sign in front of a negative number. *)
Fixpoint rdigits (fuel : nat) (n : Z) : str :=
  match fuel with
  | O => []
  | S fuel' =>
      (48 + n mod 10) :: (if n <? 10 then [] else rdigits fuel' (n / 10))
  end.

Definition String_nonneg (n : Z) : str :=
  rev (rdigits (S (Z.to_nat (Z.log2 n))) n).

Definition String_ (n : Z) : str :=
  if n <? 0 then 45 :: String_nonneg (- n) else String_nonneg n.

(** [s.padStart(n, '0')] *)
Definition padStart0 (s : str) (n : nat) : str :=
  repeat 48 (n - length s)%nat ++ s.

(** ** Constants *)

Definition EQUATION_LENGTH : nat := 6.
Definition MAX_GUESSES : nat := 6.
Definition VALID_CHARS : str := js "0123456789+-×÷=".

(** The operator characters, as the one-unit strings the source compares
    with, and the four of them as the string ['+-×÷']. *)
Definition PLUS : str := js "+".
Definition MINUS : str := js "-".
Definition TIMES : str := js "×".
Definition OBELUS : str := js "÷".
Definition EQUALS : str := js "=".
Definition OPERATORS : str := js "+-×÷".

(** ** evaluate *)

Inductive tokType := num | op.

Record token := { type : tokType; value : str }.

Global Instance tokType_eq_dec : EqDecision tokType.
Proof. solve_decision. Defined.

(** The scanning loop [for (const ch of expr)]; [None] is the early
    [return null].  (The loop walks code points; a code point above the
    basic plane is two surrogate units, neither a digit nor an operator, so
    both walks reject the string at the same place.) *)
Fixpoint scan (expr : str) (tokens : list token) (numBuf : str)
  : option (list token * str) :=
  match expr with
  | [] => Some (tokens, numBuf)
  | ch :: rest =>
      if isDigit ch then scan rest tokens (numBuf ++ [ch])
      else if includes OPERATORS ch then
        if streq numBuf [] then None
        else scan rest
               (tokens ++ [ {| type := num; value := numBuf |};
                            {| type := op; value := [ch] |} ]) []
      else None
  end.

(** [nums.pop()] *)
Definition pop (nums : list Z) : Z * list Z :=
  (List.last nums 0, removelast nums).

(** The first loop, [for (let i = 1; i < tokens.length; i += 2)], walking
    the tokens after [tokens[0]] two at a time.  A dangling single token
    cannot occur (the tokens after the first come in operator-number pairs,
    [scan_spec_parse] below); the model answers [None] there. *)
Fixpoint mulDivLoop (toks : list token) (nums : list Z) (ops : list str)
  : option (list Z * list str) :=
  match toks with
  | [] => Some (nums, ops)
  | [_] => None
  | top :: tnum :: rest =>
      let op := value top in
      let num := Number_digits (value tnum) in
      if streq op TIMES || streq op OBELUS then
        let '(prev, nums) := pop nums in
        if streq op TIMES then mulDivLoop rest (nums ++ [prev * num]) ops
        else
          if num =? 0 then None
          else if negb (prev mod num =? 0) then None
          else mulDivLoop rest (nums ++ [prev / num]) ops
      else mulDivLoop rest (nums ++ [num]) (ops ++ [op])
  end.

(** The second loop, [for (let i = 0; i < ops.length; i++)]; [nums[i + 1]]
    is always in range ([nums] has one entry more than [ops],
    [mulDivLoop_spec] below). *)
Fixpoint addSubLoop (ops : list str) (i : nat) (nums : list Z) (result : Z)
  : Z :=
  match ops with
  | [] => result
  | o :: ops' =>
      let n := default 0 (nums !! S i) in
      addSubLoop ops' (S i) nums
        (if streq o PLUS then result + n else result - n)
  end.

Definition evaluate (expr : str) : option Z :=
  match scan expr [] [] with
  | None => None
  | Some (tokens, numBuf) =>
      if streq numBuf [] then None
      else
        let tokens := tokens ++ [ {| type := num; value := numBuf |} ] in
        match tokens with
        | [] => None
        | t0 :: toks =>
            if decide (type t0 ≠ num) then None
            else
              match mulDivLoop toks [Number_digits (value t0)] [] with
              | None => None
              | Some (nums, ops) =>
                  Some (addSubLoop ops 0 nums (default 0 (nums !! 0%nat)))
              end
        end
  end.

(** ** validateGuess *)

Record validation := { valid : bool; error : option str }.

(** [s.split(sep)] for a one-unit separator. *)
Fixpoint split (sep : Z) (s : str) : list str :=
  match s with
  | [] => [[]]
  | ch :: rest =>
      if decide (ch = sep) then [] :: split sep rest
      else match split sep rest with
           | part :: parts => (ch :: part) :: parts
           | [] => [[ch]]
           end
  end.

(** [Number(s)] for an arbitrary string; [None] is [NaN].  The model covers
    the empty string and optionally signed runs of decimal digits and
    answers [NaN] elsewhere (blanks, fractions, exponents, radix prefixes,
    [Infinity]).  The only caller is the right-side guard of
    [validateGuess], whose outcome does not depend on that choice
    ([rightSideGuard_any_Number] below). *)
Definition Number_ (s : str) : option Z :=
  match s with
  | [] => Some 0
  | c :: ds =>
      if forallb isDigit s then Some (Number_digits s)
      else if decide (c = 43 ∨ c = 45) then
        if decide (ds = []) then None
        else if forallb isDigit ds then
          Some (if decide (c = 45) then - Number_digits ds else Number_digits ds)
        else None
      else None
  end.

(** [isNaN(rightVal) || rightVal !== target || right !== String(target)] *)
Definition rightSideGuard (Number : str -> option Z) (right : str)
  (target : Z) : bool :=
  let rightVal := Number right in
  bool_decide (rightVal = None)
  || bool_decide (rightVal ≠ Some target)
  || bool_decide (right ≠ String_ target).

Definition invalid (msg : str) : validation :=
  {| valid := false; error := Some msg |}.

Definition validateGuess (guess : str) (target : Z) : validation :=
  if decide (length guess ≠ EQUATION_LENGTH) then
    invalid (js "Equation must be " ++ String_ (Z.of_nat EQUATION_LENGTH)
               ++ js " characters")
  else
    match split 61 guess with
    | [left_; right_] =>
        if decide (length left_ = 0%nat ∨ length right_ = 0%nat) then
          invalid (js "Both sides of = must have values")
        else if rightSideGuard Number_ right_ target then
          invalid (js "Right side must equal " ++ String_ target)
        else
          match evaluate left_ with
          | None => invalid (js "Invalid expression")
          | Some leftVal =>
              if decide (leftVal ≠ target) then
                invalid (js "Expression equals " ++ String_ leftVal
                           ++ js ", not " ++ String_ target)
              else {| valid := true; error := None |}
          end
    | _ => invalid (js "Equation must contain exactly one =")
    end.

(** ** getCanonicalSolution and findSolution *)

(** The integers [lo, lo+1, ..., hi] of a counting loop. *)
Definition range (lo hi : Z) : list Z :=
  map (fun k => lo + Z.of_nat k) (seq 0 (Z.to_nat (hi - lo + 1))).

(** A loop whose body may [return]: the first iteration that returns. *)
Fixpoint firstOf {A} (body : A -> option str) (l : list A) : option str :=
  match l with
  | [] => None
  | x :: l' =>
      match body x with
      | Some r => Some r
      | None => firstOf body l'
      end
  end.

(** [if (expr.length === length && evaluate(expr) === target) return expr] *)
Definition candidate (target : Z) (length : nat) (expr : str) : option str :=
  if (List.length expr =? length)%nat
     && match evaluate expr with Some v => v =? target | None => false end
  then Some expr else None.

(** Statements in sequence, the first of which may [return]. *)
Notation "a 'or_else' b" :=
  (match a with Some r => Some r | None => b end)
  (at level 70, right associativity, only parsing).

Definition ops : list str := [PLUS; MINUS; TIMES; OBELUS].

Definition search4 (target : Z) (length : nat) : option str :=
  firstOf (fun op =>
    (* two digits, op, one digit: e.g. "12+3" *)
    firstOf (fun a =>
      firstOf (fun b =>
        let aStr := padStart0 (String_ a) 2 in
        let expr := aStr ++ op ++ String_ b in
        candidate target length expr
        or_else
        (* one digit, op, two digits: e.g. "3+12" *)
        let bStr := String_ b in
        let aStr2 := padStart0 (String_ a) 2 in
        let expr2 := bStr ++ op ++ aStr2 in
        candidate target length expr2)
      (range 0 9))
    (range 0 99))
  ops
  or_else
  (* three digits op one digit *)
  firstOf (fun op =>
    firstOf (fun a =>
      firstOf (fun b =>
        candidate target length (String_ a ++ op ++ String_ b))
      (range 0 9))
    (range 100 999))
  ops.

Definition search3 (target : Z) (length : nat) : option str :=
  firstOf (fun op =>
    firstOf (fun a =>
      firstOf (fun b =>
        candidate target length (String_ a ++ op ++ String_ b))
      (range 0 9))
    (range 0 9))
  ops.

Definition search5 (target : Z) (length : nat) : option str :=
  firstOf (fun op =>
    firstOf (fun a =>
      firstOf (fun b =>
        candidate target length (String_ a ++ op ++ String_ b))
      (range 10 99))
    (range 10 99)
    or_else
    firstOf (fun a =>
      firstOf (fun b =>
        candidate target length (String_ a ++ op ++ String_ b)
        or_else
        candidate target length (String_ b ++ op ++ String_ a))
      (range 0 9))
    (range 100 999))
  ops
  or_else
  (* two operators: d op d op d *)
  firstOf (fun op1 =>
    firstOf (fun op2 =>
      firstOf (fun a =>
        firstOf (fun b =>
          firstOf (fun c =>
            candidate target length
              (String_ a ++ op1 ++ String_ b ++ op2 ++ String_ c))
          (range 0 9))
        (range 0 9))
      (range 0 9))
    ops)
  ops.

(** The structured patterns of [findSolution], in the order of the source:
    the blocks for length 4, 3, 2 (an empty loop) and 5. *)
Definition structured (target : Z) (length : nat) : option str :=
  (if decide (length = 4%nat) then search4 target length else None)
  or_else
  (if decide (length = 3%nat) then search3 target length else None)
  or_else
  (if decide (length = 5%nat) then search5 target length else None).

(** [String(target).padStart(length, '0')] *)
Definition fallback (target : Z) (length : nat) : str :=
  padStart0 (String_ target) length.

Definition findSolution (target : Z) (length : nat) : str :=
  match structured target length with
  | Some expr => expr
  | None => fallback target length
  end.

Definition getCanonicalSolution (target : Z) : str :=
  let targetStr := String_ target in
  let rightSide := EQUALS ++ targetStr in
  let leftLen := (EQUATION_LENGTH - length rightSide)%nat in
  let solution := findSolution target leftLen in
  solution ++ rightSide.

(** ** getGuessResult *)

Inductive CellState := correct | present | absent | empty.

Global Instance CellState_eq_dec : EqDecision CellState.
Proof. solve_decision. Defined.

(** The arrays [result] and [used], mutated by both passes. *)
Definition marks : Type := (list CellState * list bool)%type.

(** Body of the first loop.  [a[i]] is [a !! i], with [None] for
    [undefined]. *)
Definition greenStep (guessChars solutionChars : str) (m : marks) (i : nat)
  : marks :=
  let '(result, used) := m in
  if bool_decide (guessChars !! i = solutionChars !! i)
  then (<[i:=correct]> result, <[i:=true]> used)
  else (result, used).

(** First pass: greens. *)
Definition greens (guessChars solutionChars : str) (m : marks) : marks :=
  foldl (greenStep guessChars solutionChars) m (seq 0 EQUATION_LENGTH).

(** The inner loop [for (let j ...)] of the second pass, with its [break]. *)
Fixpoint yellowScan (range_j : list nat) (guessChars solutionChars : str)
  (i : nat) (m : marks) : marks :=
  match range_j with
  | [] => m
  | j :: range_j' =>
      let '(result, used) := m in
      if negb (default false (used !! j))
         && bool_decide (guessChars !! i = solutionChars !! j)
      then (<[i:=present]> result, <[j:=true]> used)
      else yellowScan range_j' guessChars solutionChars i m
  end.

(** Body of the second loop. *)
Definition yellowStep (guessChars solutionChars : str) (m : marks) (i : nat)
  : marks :=
  if bool_decide (fst m !! i = Some correct) then m
  else yellowScan (seq 0 EQUATION_LENGTH) guessChars solutionChars i m.

(** Second pass: yellows. *)
Definition yellows (guessChars solutionChars : str) (m : marks) : marks :=
  foldl (yellowStep guessChars solutionChars) m (seq 0 EQUATION_LENGTH).

(** The body of [getGuessResult] once the canonical solution is known. *)
Definition scoreAgainst (canonical guess : str) : list CellState :=
  let result := replicate EQUATION_LENGTH absent in
  let solutionChars := canonical in
  let guessChars := guess in
  let used := replicate EQUATION_LENGTH false in
  fst (yellows guessChars solutionChars
         (greens guessChars solutionChars (result, used))).

Definition getGuessResult (guess : str) (target : Z) : list CellState :=
  scoreAgainst (getCanonicalSolution target) guess.

(** ** getDailyTarget *)

(** The calendar fields [getDailyTarget] reads from its [Date]:
    [getFullYear()], [getMonth()] (0 to 11) and [getDate()]. *)
Record Date := { getFullYear : Z; getMonth : Z; getDate : Z }.

(** Conversion of a number to a 32-bit signed integer. *)
Definition ToInt32 (x : Z) : Z := (x + 2 ^ 31) mod 2 ^ 32 - 2 ^ 31.

(** [x << k], [x | y], [x & y] on numbers. *)
Definition shl (x k : Z) : Z := ToInt32 (Z.shiftl (ToInt32 x) (k mod 32)).
Definition bor (x y : Z) : Z := Z.lor (ToInt32 x) (ToInt32 y).
Definition band (x y : Z) : Z := Z.land (ToInt32 x) (ToInt32 y).

Definition dateString (date : Date) : str :=
  String_ (getFullYear date) ++ js "-"
  ++ padStart0 (String_ (getMonth date + 1)) 2 ++ js "-"
  ++ padStart0 (String_ (getDate date)) 2.

(** The loop over [dateStr.charCodeAt(i)]. *)
Definition hashLoop (dateStr : str) : Z :=
  fold_left (fun hash c => bor (shl hash 5 - hash + c) 0) dateStr 0.

Definition getDailyTarget (date : Date) : Z :=
  let dateStr := dateString date in
  let hash := hashLoop dateStr in
  Z.rem (band hash 0x7fffffff) 99 + 1.

(** ** The statistics update of [submitGuess] ([App.tsx]) *)

Record GameStats := {
  played : Z;
  won : Z;
  streak : Z;
  maxStreak : Z;
  guessDistribution : list Z;
  lastDay : Z
}.

(** The [if (done) { ... }] block: [newStats] as it is passed to
    [saveStats].  ([guessDistribution[k]++] is modelled for the slots that
    exist; [{ ...stats }] copies the fields, so the old [stats] keeps its
    [streak] and [lastDay].) *)
Definition completeGame (stats : GameStats) (dayNumber : Z) (isWin : bool)
  (nGuesses : nat) : GameStats :=
  let played' := played stats + 1 in
  if isWin then
    let won' := won stats + 1 in
    let streak' :=
      if decide (lastDay stats = dayNumber - 1 ∨ lastDay stats = 0)
      then streak stats + 1 else 1 in
    let maxStreak' := Z.max (maxStreak stats) streak' in
    {| played := played'; won := won'; streak := streak';
       maxStreak := maxStreak';
       guessDistribution :=
         alter Z.succ (nGuesses - 1)%nat (guessDistribution stats);
       lastDay := dayNumber |}
  else
    {| played := played'; won := won stats; streak := 0;
       maxStreak := maxStreak stats;
       guessDistribution := guessDistribution stats;
       lastDay := dayNumber |}.

(** ** generateShareText *)

(** [emojiMap]: the green and the yellow square lie above the basic plane
    and are two code units each, the black and the white square one. *)
Definition emojiMap (r : CellState) : str :=
  match r with
  | correct => [0xD83D; 0xDFE9]
  | present => [0xD83D; 0xDFE8]
  | absent => [0x2B1B]
  | empty => [0x2B1C]
  end.

(** [parts.join(sep)] *)
Fixpoint join (sep : str) (parts : list str) : str :=
  match parts with
  | [] => []
  | [part] => part
  | part :: rest => part ++ sep ++ join sep rest
  end.

Definition NEWLINE : str := [10].

Definition generateShareText (guesses : list str) (target dayNumber : Z)
  : str :=
  let lines :=
    map (fun g =>
           let result := getGuessResult g target in
           join [] (map emojiMap result))
        guesses in
  js "Numbrle #" ++ String_ dayNumber ++ js " "
  ++ String_ (Z.of_nat (length guesses)) ++ js "/6" ++ NEWLINE ++ NEWLINE
  ++ join NEWLINE lines
  ++ NEWLINE ++ NEWLINE ++ js "numbrle.vercel.app".

(** ** keyStates ([App.tsx]) *)

(** Body of the inner loop: [states] is the object [Record<string,
    CellState>], keyed by the one-unit strings [guess[i]]; [!states[ch]]
    holds when the key is missing. *)
Definition keyStep (result : list CellState) (guess : str)
  (states : gmap Z CellState) (i : nat) : gmap Z CellState :=
  match guess !! i with
  | None => states
  | Some ch =>
      let s := result !! i in
      if decide (s = Some correct) then <[ch:=correct]> states
      else if decide (s = Some present ∧ states !! ch ≠ Some correct)
      then <[ch:=present]> states
      else if decide (s = Some absent ∧ states !! ch = None)
      then <[ch:=absent]> states
      else states
  end.

Definition keyStates (guesses : list str) (target : Z) : gmap Z CellState :=
  foldl (fun states guess =>
           let result := getGuessResult guess target in
           foldl (keyStep result guess) states (seq 0 (length guess)))
        ∅ guesses.

(** ** submitGuess and handleKey ([App.tsx]) *)

(** [s.includes(sub)] for a string [sub]. *)
Fixpoint startsWith (s sub : str) : bool :=
  match sub, s with
  | [], _ => true
  | c :: sub', x :: s' => (x =? c) && startsWith s' sub'
  | _ :: _, [] => false
  end.

Fixpoint includesStr (s sub : str) : bool :=
  startsWith s sub
  || match s with
     | [] => false
     | _ :: s' => includesStr s' sub
     end.

Module App.

(** The React state that [submitGuess] reads and sets. *)
Record State := {
  guesses : list str;
  currentGuess : str;
  finished : bool;
  won : bool;
  stats : GameStats
}.

(** [submitGuess], from the state its closure holds to the values it hands
    to the setters; [None] is an early [return], which sets and saves
    nothing (the toast and the shake of the row are not modelled).  When
    [done], [saveStats] receives [stats] of the result, and [saveState]
    always receives its [guesses], [finished] and [won] with
    [day: dayNumber]. *)
Definition submitGuess (target dayNumber : Z) (st : State) : option State :=
  if finished st then None
  else
    let validation := validateGuess (currentGuess st) target in
    if negb (valid validation) then None
    else
      let newGuesses := guesses st ++ [currentGuess st] in
      let isCorrect := valid (validateGuess (currentGuess st) target) in
      let isWin := isCorrect in
      let isLast := (MAX_GUESSES <=? length newGuesses)%nat in
      let done := isWin || isLast in
      Some
        {| guesses := newGuesses;
           currentGuess := [];
           finished := if done then true else finished st;
           won := if done then isWin else won st;
           stats :=
             if done
             then completeGame (stats st) dayNumber isWin (length newGuesses)
             else stats st |}.

(** [handleKey], the one entry of the on-screen and of the physical
    keyboard, on the state the previous event left: [Enter] submits,
    [Backspace] is [g.slice(0, -1)], and a key found in [VALID_CHARS] is
    appended while the row has room. *)
Definition handleKey (target dayNumber : Z) (key : str) (st : State) : State :=
  if finished st then st
  else if streq key (js "Enter") then
    match submitGuess target dayNumber st with
    | Some st' => st'
    | None => st
    end
  else if streq key (js "Backspace") then
    {| guesses := guesses st; currentGuess := removelast (currentGuess st);
       finished := finished st; won := won st; stats := stats st |}
  else if includesStr VALID_CHARS key
          && (length (currentGuess st) <? EQUATION_LENGTH)%nat then
    {| guesses := guesses st; currentGuess := currentGuess st ++ key;
       finished := finished st; won := won st; stats := stats st |}
  else st.

(** The state of a first visit: [useState] defaults and [loadStats] on an
    empty store. *)
Definition initial : State :=
  {| guesses := []; currentGuess := []; finished := false; won := false;
     stats := Build_GameStats 0 0 0 0 [0; 0; 0; 0; 0; 0] 0 |}.

End App.

(** * Reference definitions, written from the specification *)

(** ** Two-pass evaluation (specification, section 4.1) *)

Inductive addop := Add | Sub.
Inductive mulop := Mul | Div.
Inductive operator := Additive (o : addop) | Multiplicative (o : mulop).

Definition operator_of (ch : Z) : option operator :=
  if ch =? 43 then Some (Additive Add)
  else if ch =? 45 then Some (Additive Sub)
  else if ch =? 215 then Some (Multiplicative Mul)
  else if ch =? 247 then Some (Multiplicative Div)
  else None.

Definition isOperator (ch : Z) : Prop := is_Some (operator_of ch).

(** An expression is a number followed by operator-number pairs.
    [acc] is the value of the digits of the current number read so far. *)
Fixpoint spec_parse (expr : str) (acc : option Z)
  : option (Z * list (operator * Z)) :=
  match expr with
  | [] => match acc with Some n => Some (n, []) | None => None end
  | ch :: rest =>
      if isDigit ch then spec_parse rest (Some (default 0 acc * 10 + (ch - 48)))
      else
        match operator_of ch, acc with
        | Some o, Some n =>
            match spec_parse rest None with
            | Some (m, tl) => Some (n, (o, m) :: tl)
            | None => None
            end
        | _, _ => None
        end
  end.

Global Instance Zdivide_decision (n m : Z) : Decision (n | m).
Proof.
  destruct (decide (n = 0)) as [->|Hn].
  - destruct (decide (m = 0)) as [->|Hm].
    + left. apply Z.divide_0_r.
    + right. intros H. apply Z.divide_0_l in H. contradiction.
  - destruct (decide (m mod n = 0)) as [H|H].
    + left. apply Z.mod_divide; assumption.
    + right. intros H'. apply H. apply Z.mod_divide; assumption.
Defined.

(** First pass: every [×] and [÷] applied left to right; what is left is a
    first number and numbers separated by [+] and [-] only. *)
Fixpoint spec_resolveMulDiv (cur : Z) (rest : list (operator * Z))
  : option (Z * list (addop * Z)) :=
  match rest with
  | [] => Some (cur, [])
  | (Multiplicative Mul, n) :: rest' => spec_resolveMulDiv (cur * n) rest'
  | (Multiplicative Div, n) :: rest' =>
      if decide (n = 0) then None
      else if decide ((n | cur)) then spec_resolveMulDiv (cur / n) rest'
      else None
  | (Additive o, n) :: rest' =>
      match spec_resolveMulDiv n rest' with
      | Some (v, flat) => Some (cur, (o, v) :: flat)
      | None => None
      end
  end.

(** Second pass: the remaining [+] and [-] folded left to right. *)
Definition spec_foldAddSub (first : Z) (flat : list (addop * Z)) : Z :=
  fold_left (fun acc '(o, v) =>
               match o with Add => acc + v | Sub => acc - v end)
            flat first.

Definition spec_evaluate (expr : str) : option Z :=
  match spec_parse expr None with
  | None => None
  | Some (n0, rest) =>
      match spec_resolveMulDiv n0 rest with
      | None => None
      | Some (v, flat) => Some (spec_foldAddSub v flat)
      end
  end.

(** ** The expressions on which integers and doubles agree *)

(** An expression of at most 15 characters.  Every number it spells, every
    product or quotient of a [×]/[÷] chain and every partial sum is below
    10^15 in magnitude, hence below 2^53: there [Number] reads a digit run
    exactly, [*], [+], [-] are exact on doubles, [prev / num] is an integer
    exactly when [num] divides [prev], and [String] prints plain decimal
    digits ([SafeExpr_value_bound] below proves the bound on the value).
    The left side of a guess has at most five characters. *)
Definition SafeExpr (expr : str) : Prop := (length expr ≤ 15)%nat.

(** ** The failures of evaluation (specification, sections 4.1 and 7) *)

Definition BadChar (expr : str) : Prop :=
  ∃ ch, ch ∈ expr ∧ isDigit ch = false ∧ ¬ isOperator ch.

(** An operator without a preceding number: at the start, or directly
    after another operator. *)
Definition StartsWithOperator (expr : str) : Prop :=
  ∃ o rest, expr = o :: rest ∧ isOperator o.

Definition AdjacentOperators (expr : str) : Prop :=
  ∃ pre o1 o2 rest,
    expr = pre ++ o1 :: o2 :: rest ∧ isOperator o1 ∧ isOperator o2.

Definition OperatorWithoutNumber (expr : str) : Prop :=
  StartsWithOperator expr ∨ AdjacentOperators expr.

Definition EndsMidOperator (expr : str) : Prop :=
  ∃ pre o, expr = pre ++ [o] ∧ isOperator o.

(** A [÷] whose divisor is 0 or does not divide the value to its left,
    that value being the product/quotient chain built so far. *)
Inductive DivisionFails : Z -> list (operator * Z) -> Prop :=
  | div_by_zero cur rest :
      DivisionFails cur ((Multiplicative Div, 0) :: rest)
  | div_inexact cur n rest :
      n ≠ 0 -> ¬ (n | cur) ->
      DivisionFails cur ((Multiplicative Div, n) :: rest)
  | div_later cur n rest :
      n ≠ 0 -> (n | cur) -> DivisionFails (cur / n) rest ->
      DivisionFails cur ((Multiplicative Div, n) :: rest)
  | mul_later cur n rest :
      DivisionFails (cur * n) rest ->
      DivisionFails cur ((Multiplicative Mul, n) :: rest)
  | add_later cur o n rest :
      DivisionFails n rest ->
      DivisionFails cur ((Additive o, n) :: rest).

Definition DivisionFailure (expr : str) : Prop :=
  ∃ n0 rest, spec_parse expr None = Some (n0, rest) ∧ DivisionFails n0 rest.

(** ** The rolling hash (specification, section 4.2) *)

Definition spec_hash31 (s : str) : Z :=
  fold_left (fun hash c => ToInt32 (hash * 31 + c)) s 0.

(** ** Two-pass scoring (specification, section 4.6) *)

(** Consume the first unconsumed solution character equal to [c]. *)
Fixpoint consume (c : Z) (pool : list Z) : option (list Z) :=
  match pool with
  | [] => None
  | x :: pool' =>
      if x =? c then Some pool'
      else match consume c pool' with
           | Some p => Some (x :: p)
           | None => None
           end
  end.

(** First pass: a position is [None] when the guess matches the solution
    there (correct, solution position consumed); otherwise it keeps its
    guess character and the solution character stays in the pool. *)
Fixpoint spec_pass1 (guess canonical : str) : list (option Z) * list Z :=
  match guess, canonical with
  | g :: guess', s :: canonical' =>
      let '(ms, pool) := spec_pass1 guess' canonical' in
      if g =? s then (None :: ms, pool) else (Some g :: ms, s :: pool)
  | _, _ => ([], [])
  end.

(** Second pass, left to right over the guess. *)
Fixpoint spec_pass2 (ms : list (option Z)) (pool : list Z) : list CellState :=
  match ms with
  | [] => []
  | None :: ms' => correct :: spec_pass2 ms' pool
  | Some g :: ms' =>
      match consume g pool with
      | Some pool' => present :: spec_pass2 ms' pool'
      | None => absent :: spec_pass2 ms' pool
      end
  end.

Definition spec_score (guess canonical : str) : list CellState :=
  let '(ms, pool) := spec_pass1 guess canonical in spec_pass2 ms pool.

(** The number of positions of [guess] that hold [c] and are marked
    correct or present in [result]. *)
Fixpoint credited (c : Z) (guess : str) (result : list CellState) : nat :=
  match guess, result with
  | g :: guess', r :: result' =>
      if (g =? c) && (bool_decide (r = correct) || bool_decide (r = present))
      then S (credited c guess' result')
      else credited c guess' result'
  | _, _ => 0%nat
  end.

(** Occurrences of [c] in a string. *)
Definition occurrences (c : Z) (s : str) : nat := count_occ Z.eq_dec s c.

(** ** The reasons of [validateGuess] *)

Definition reason_length : str :=
  js "Equation must be 6 characters".
Definition reason_one_equals : str :=
  js "Equation must contain exactly one =".
Definition reason_sides : str :=
  js "Both sides of = must have values".
Definition reason_right (target : Z) : str :=
  js "Right side must equal " ++ String_ target.
Definition reason_expression : str :=
  js "Invalid expression".
Definition reason_value (leftVal target : Z) : str :=
  js "Expression equals " ++ String_ leftVal ++ js ", not " ++ String_ target.

(** * Auxiliary definitions relating the two levels *)

(** The accumulator of [spec_parse] that corresponds to a digit buffer. *)
Definition acc_of (numBuf : str) : option Z :=
  match numBuf with [] => None | _ => Some (Number_digits numBuf) end.

Definition addop_str (o : addop) : str :=
  match o with Add => PLUS | Sub => MINUS end.

(** A token list [op; num; op; num; ...] and the operator-number pairs it
    stands for. *)
Inductive Encodes : list token -> list (operator * Z) -> Prop :=
  | Encodes_nil : Encodes [] []
  | Encodes_cons ch o s toks rest :
      operator_of ch = Some o ->
      Encodes toks rest ->
      Encodes ({| type := op; value := [ch] |}
                 :: {| type := num; value := s |} :: toks)
              ((o, Number_digits s) :: rest).

(** The mark of a position after the first pass: [None] where the guess
    matched, the guess character elsewhere. *)
Definition resMark (m : option Z) : CellState :=
  match m with None => correct | Some _ => absent end.

Definition Keeps (m : option Z) (g : Z) : Prop := m = None ∨ m = Some g.

(** The array [used] after the first pass. *)
Fixpoint usedOf (guess canonical : str) : list bool :=
  match guess, canonical with
  | g :: guess', s :: canonical' => (g =? s) :: usedOf guess' canonical'
  | _, _ => []
  end.

(** The solution characters that [used] leaves unconsumed, in order. *)
Fixpoint poolOf (used : list bool) (solutionChars : str) : list Z :=
  match used, solutionChars with
  | b :: used', x :: sol' =>
      if b then poolOf used' sol' else x :: poolOf used' sol'
  | _, _ => []
  end.

(** The effect of the inner loop on [used]: the first unused position that
    holds [c] becomes used. *)
Fixpoint consume2 (c : Z) (used : list bool) (solutionChars : str)
  : option (list bool) :=
  match used, solutionChars with
  | b :: used', x :: sol' =>
      if negb b && (x =? c) then Some (true :: used')
      else match consume2 c used' sol' with
           | Some used'' => Some (b :: used'')
           | None => None
           end
  | _, _ => None
  end.

(** Positions marked correct in the first pass whose character is [c]. *)
Fixpoint greenCount (c : Z) (ms : list (option Z)) (guess : str) : nat :=
  match ms, guess with
  | m :: ms', g :: guess' =>
      match m with
      | None => if g =? c then S (greenCount c ms' guess')
                else greenCount c ms' guess'
      | Some _ => greenCount c ms' guess'
      end
  | _, _ => 0%nat
  end.

(** What is checked of the canonical solution of one target: six
    characters, one [=], the decimal string of the target on the right, a
    left side that evaluates to the target, and a valid guess. *)
Definition canonical_ok (t : Z) : bool :=
  let c := getCanonicalSolution t in
  (length c =? 6)%nat
  && (occurrences 61 c =? 1)%nat
  && match split 61 c with
     | [l; r] =>
         streq r (String_ t)
         && match evaluate l with Some v => v =? t | None => false end
     | _ => false
     end
  && match validateGuess c t with
     | {| valid := true; error := None |} => true
     | _ => false
     end.

(** The length [getCanonicalSolution] asks [findSolution] for. *)
Definition leftLen (target : Z) : nat :=
  (EQUATION_LENGTH - length (EQUALS ++ String_ target))%nat.

(** How strongly a key of the keyboard is coloured. *)
Definition rank (o : option CellState) : nat :=
  match o with
  | Some correct => 3
  | Some present => 2
  | Some absent => 1
  | _ => 0
  end.

(** Some guess holds [ch] at a position that is scored [s]. *)
Definition Marked (guesses : list str) (target ch : Z) (s : CellState)
  : Prop :=
  ∃ guess i,
    guess ∈ guesses ∧ guess !! i = Some ch
    ∧ getGuessResult guess target !! i = Some s.

Definition NoEmpty (states : gmap Z CellState) : Prop :=
  ∀ ch, states !! ch ≠ Some empty.



(** One key of the keyboard: a character, Enter or Backspace. *)
Definition OneKey (key : str) : Prop :=
  length key = 1%nat ∨ key = js "Enter" ∨ key = js "Backspace".

(** The two shapes of a session: still open and untouched, or won with the
    one guess that was accepted. *)
Definition SessionShape (target dayNumber : Z) (st : App.State) : Prop :=
  (App.finished st = false ∧ App.won st = false ∧ App.guesses st = []
   ∧ App.stats st = App.stats App.initial)
  ∨ (App.finished st = true ∧ App.won st = true
     ∧ App.currentGuess st = []
     ∧ (∃ g, App.guesses st = [g]
             ∧ valid (validateGuess g target) = true)
     ∧ App.stats st
       = completeGame (App.stats App.initial) dayNumber true 1).

(** The first line of the share text, and its rows of squares. *)
Definition shareHeader (guesses : list str) (dayNumber : Z) : str :=
  js "Numbrle #" ++ String_ dayNumber ++ js " "
  ++ String_ (Z.of_nat (length guesses)) ++ js "/6".

Definition shareRows (guesses : list str) (target : Z) : list str :=
  map (fun g => concat (map emojiMap (getGuessResult g target))) guesses.

(** The room an operator-number list takes: a factor 10 for the operator
    and up to [m + 1] for the number [m]. *)
Fixpoint room (rest : list (operator * Z)) : Z :=
  match rest with
  | [] => 1
  | (_, m) :: rest' => 10 * (m + 1) * room rest'
  end.

Definition sumTerms (flat : list (addop * Z)) : Z :=
  fold_right (fun p acc => snd p + acc) 0 flat.

(** * Properties *)

(** ** Strings and numbers *)

Lemma streq_spec (a b : str) : streq a b = true ↔ a = b.
Proof.
  revert b. induction a as [|x a IH]; intros [|y b]; simpl; try (split; congruence).
  rewrite andb_true_iff, Z.eqb_eq, IH. split.
  - intros [-> ->]. reflexivity.
  - intros [= -> ->]. auto.
Qed.

Lemma streq_refl (a : str) : streq a a = true.
Proof. apply streq_spec. reflexivity. Qed.

Lemma streq_neq (a b : str) : a ≠ b -> streq a b = false.
Proof.
  intros H. destruct (streq a b) eqn:E; [|reflexivity].
  apply streq_spec in E. contradiction.
Qed.

Lemma streq_nil_snoc (s : str) (c : Z) : streq (s ++ [c]) [] = false.
Proof. destruct s; reflexivity. Qed.

Lemma isDigit_range (ch : Z) : isDigit ch = true ↔ 48 ≤ ch ≤ 57.
Proof. unfold isDigit. rewrite andb_true_iff, !Z.leb_le. tauto. Qed.

(** The four operator characters, and nothing else. *)
Lemma operator_of_cases (ch : Z) :
  (ch = 43 ∧ operator_of ch = Some (Additive Add))
  ∨ (ch = 45 ∧ operator_of ch = Some (Additive Sub))
  ∨ (ch = 215 ∧ operator_of ch = Some (Multiplicative Mul))
  ∨ (ch = 247 ∧ operator_of ch = Some (Multiplicative Div))
  ∨ (includes OPERATORS ch = false ∧ operator_of ch = None).
Proof.
  unfold operator_of, includes, OPERATORS. simpl.
  destruct (Z.eqb_spec ch 43); [auto|].
  destruct (Z.eqb_spec ch 45); [auto|].
  destruct (Z.eqb_spec ch 215); [auto 6|].
  destruct (Z.eqb_spec ch 247); auto 6.
Qed.

Lemma includes_OPERATORS (ch : Z) :
  includes OPERATORS ch = true ↔ isOperator ch.
Proof.
  unfold isOperator.
  destruct (operator_of_cases ch)
    as [[-> ->]|[[-> ->]|[[-> ->]|[[-> ->]|[-> ->]]]]];
    split; intros H; try reflexivity; try (eexists; reflexivity);
    try discriminate.
  destruct H; discriminate.
Qed.

Lemma digit_not_operator (ch : Z) : isDigit ch = true -> ¬ isOperator ch.
Proof.
  rewrite isDigit_range. intros Hd [o Ho].
  destruct (operator_of_cases ch)
    as [[-> _]|[[-> _]|[[-> _]|[[-> _]|[_ H]]]]]; try lia.
  congruence.
Qed.

Lemma Number_digits_snoc (s : str) (c : Z) :
  Number_digits (s ++ [c]) = Number_digits s * 10 + (c - 48).
Proof. unfold Number_digits. rewrite fold_left_app. reflexivity. Qed.

Lemma rdigits_digits (fuel : nat) (n : Z) :
  0 ≤ n -> forallb isDigit (rdigits fuel n) = true.
Proof.
  revert n. induction fuel as [|fuel IH]; intros n Hn; [reflexivity|].
  simpl. apply andb_true_iff. split.
  - apply isDigit_range. pose proof (Z.mod_pos_bound n 10). lia.
  - destruct (n <? 10); [reflexivity|].
    apply IH. apply Z.div_pos; lia.
Qed.

Lemma Number_digits_rdigits (fuel : nat) (n : Z) :
  0 ≤ n < 2 ^ Z.of_nat fuel -> Number_digits (rev (rdigits fuel n)) = n.
Proof.
  revert n. induction fuel as [|fuel IH]; intros n Hn.
  - simpl in *. assert (n = 0) as -> by lia. reflexivity.
  - simpl rdigits. simpl rev. rewrite Number_digits_snoc.
    destruct (Z.ltb_spec n 10) as [Hlt|Hge].
    + change (Number_digits (rev [])) with 0.
      rewrite Z.mod_small by lia. lia.
    + rewrite IH.
      * pose proof (Z.div_mod n 10). lia.
      * rewrite Nat2Z.inj_succ, Z.pow_succ_r in Hn by lia.
        split; [apply Z.div_pos; lia|].
        apply Z.div_lt_upper_bound; lia.
Qed.

Lemma String_nonneg_fuel (n : Z) :
  0 ≤ n -> n < 2 ^ Z.of_nat (S (Z.to_nat (Z.log2 n))).
Proof.
  intros Hn. rewrite Nat2Z.inj_succ, Z2Nat.id by apply Z.log2_nonneg.
  destruct (Z.eq_dec n 0) as [->|Hne]; [reflexivity|].
  apply Z.log2_spec. lia.
Qed.

Lemma Number_digits_String_nonneg (n : Z) :
  0 ≤ n -> Number_digits (String_nonneg n) = n.
Proof.
  intros Hn. apply Number_digits_rdigits.
  split; [assumption|]. apply String_nonneg_fuel; assumption.
Qed.

Lemma forallb_rev (f : Z -> bool) (l : list Z) :
  forallb f (rev l) = forallb f l.
Proof.
  induction l as [|x l IH]; [reflexivity|].
  simpl. rewrite forallb_app, IH. simpl.
  rewrite andb_true_r. apply andb_comm.
Qed.

Lemma String_nonneg_digits (n : Z) :
  0 ≤ n -> forallb isDigit (String_nonneg n) = true.
Proof.
  intros Hn. unfold String_nonneg. rewrite forallb_rev.
  apply rdigits_digits; assumption.
Qed.

Lemma String_nonneg_nonempty (n : Z) : String_nonneg n ≠ [].
Proof.
  unfold String_nonneg. simpl. intros H.
  apply (f_equal (@length Z)) in H. rewrite length_app in H.
  simpl in H. lia.
Qed.

Lemma String_nonempty (n : Z) : String_ n ≠ [].
Proof.
  unfold String_. destruct (n <? 0); [discriminate|].
  apply String_nonneg_nonempty.
Qed.

(** [Number(String(t)) === t] *)
Lemma Number_String (t : Z) : Number_ (String_ t) = Some t.
Proof.
  unfold String_. destruct (Z.ltb_spec t 0) as [Hneg|Hpos].
  - unfold Number_.
    assert (forallb isDigit (45 :: String_nonneg (- t)) = false) as ->
      by reflexivity.
    rewrite decide_True by auto.
    rewrite decide_False by apply String_nonneg_nonempty.
    rewrite String_nonneg_digits by lia.
    rewrite decide_True by reflexivity.
    rewrite Number_digits_String_nonneg by lia. f_equal. lia.
  - pose proof (String_nonneg_nonempty t) as Hne.
    pose proof (String_nonneg_digits t Hpos) as Hd.
    pose proof (Number_digits_String_nonneg t Hpos) as Hv.
    unfold Number_. destruct (String_nonneg t) as [|c ds]; [congruence|].
    rewrite Hd, Hv. reflexivity.
Qed.

(** The right-side guard lets exactly the decimal string of the target
    through, whatever conversion stands for [Number], provided that it
    reads back what [String] prints. *)
Section NumberConversion.
Variable Number : str -> option Z.
Hypothesis Number_reads_String : ∀ t, Number (String_ t) = Some t.

Lemma rightSideGuard_any_Number (right_ : str) (target : Z) :
  rightSideGuard Number right_ target = false ↔ right_ = String_ target.
Proof.
  unfold rightSideGuard. rewrite !orb_false_iff, !bool_decide_eq_false.
  split.
  - intros [_ H]. destruct (decide (right_ = String_ target)); tauto.
  - intros ->. rewrite Number_reads_String.
    repeat split; intros H; congruence.
Qed.
End NumberConversion.

Lemma rightSideGuard_spec (right_ : str) (target : Z) :
  rightSideGuard Number_ right_ target = false ↔ right_ = String_ target.
Proof. apply rightSideGuard_any_Number. apply Number_String. Qed.

(** ** getDailyTarget *)

Lemma ToInt32_range (x : Z) : - 2 ^ 31 ≤ ToInt32 x < 2 ^ 31.
Proof. unfold ToInt32. pose proof (Z.mod_pos_bound (x + 2 ^ 31) (2 ^ 32)). lia. Qed.

Lemma ToInt32_small (x : Z) : - 2 ^ 31 ≤ x < 2 ^ 31 -> ToInt32 x = x.
Proof. intros H. unfold ToInt32. rewrite Z.mod_small; lia. Qed.

(** Wrapping forgets multiples of 2^32. *)
Lemma ToInt32_add_mul (x k : Z) : ToInt32 (x + k * 2 ^ 32) = ToInt32 x.
Proof.
  unfold ToInt32.
  replace (x + k * 2 ^ 32 + 2 ^ 31) with (x + 2 ^ 31 + k * 2 ^ 32) by lia.
  rewrite Z.mod_add by lia. reflexivity.
Qed.

Lemma ToInt32_wraps (x : Z) : ∃ k, ToInt32 x = x + k * 2 ^ 32.
Proof.
  exists (- ((x + 2 ^ 31) / 2 ^ 32)). unfold ToInt32.
  pose proof (Z.div_mod (x + 2 ^ 31) (2 ^ 32)). lia.
Qed.

(** The step of the source, [((hash << 5) - hash + c) | 0], is the step of
    the multiply-by-31 hash. *)
Lemma hash_step (hash c : Z) :
  bor (shl hash 5 - hash + c) 0 = ToInt32 (hash * 31 + c).
Proof.
  unfold bor, shl.
  change (ToInt32 0) with 0. rewrite Z.lor_0_r.
  change (5 mod 32) with 5. rewrite Z.shiftl_mul_pow2 by lia.
  destruct (ToInt32_wraps hash) as [k ->].
  destruct (ToInt32_wraps ((hash + k * 2 ^ 32) * 2 ^ 5)) as [k' ->].
  replace ((hash + k * 2 ^ 32) * 2 ^ 5 + k' * 2 ^ 32 - hash + c)
    with (hash * 31 + c + (k * 2 ^ 5 + k') * 2 ^ 32) by lia.
  apply ToInt32_add_mul.
Qed.

Lemma fold_left_pointwise {A B} (f g : A -> B -> A) (l : list B) :
  (∀ a b, f a b = g a b) -> ∀ a, fold_left f l a = fold_left g l a.
Proof.
  intros H. induction l as [|b l IH]; intros a; [reflexivity|].
  cbn [fold_left]. rewrite H. apply IH.
Qed.

Lemma hashLoop_spec (s : str) : hashLoop s = spec_hash31 s.
Proof.
  unfold hashLoop, spec_hash31. apply fold_left_pointwise.
  intros hash c. apply hash_step.
Qed.

Lemma spec_hash31_range (s : str) : - 2 ^ 31 ≤ spec_hash31 s < 2 ^ 31.
Proof.
  unfold spec_hash31.
  assert (∀ h, - 2 ^ 31 ≤ h < 2 ^ 31 ->
            - 2 ^ 31 ≤ fold_left (fun hash c => ToInt32 (hash * 31 + c)) s h
              < 2 ^ 31) as H.
  { induction s as [|c s IH]; intros h Hh; [exact Hh|].
    simpl. apply IH. apply ToInt32_range. }
  apply H. lia.
Qed.

Lemma mask_range (h : Z) : 0 ≤ Z.land h 0x7fffffff < 2 ^ 31.
Proof.
  change 0x7fffffff with (Z.ones 31). rewrite Z.land_ones by lia.
  apply Z.mod_pos_bound. lia.
Qed.

Lemma getDailyTarget_unfold (date : Date) :
  getDailyTarget date
  = Z.land (spec_hash31 (dateString date)) 0x7fffffff mod 99 + 1.
Proof.
  unfold getDailyTarget, band. rewrite hashLoop_spec.
  rewrite (ToInt32_small (spec_hash31 _)) by apply spec_hash31_range.
  change (ToInt32 0x7fffffff) with 0x7fffffff.
  rewrite Z.rem_mod_nonneg; [reflexivity| |lia].
  apply mask_range.
Qed.

(** C6.  The daily target is [((h & 0x7fffffff) mod 99) + 1] for [h] the
    multiply-by-31 rolling hash, wrapped to 32-bit signed, of the date
    string; the source's step [((hash << 5) - hash + c) | 0] is that
    hash's step; the target lies in [1, 99]; and dates with the same date
    string have the same target. *)
Theorem getDailyTarget_rolling_hash (date : Date) :
  (∀ hash c, bor (shl hash 5 - hash + c) 0 = ToInt32 (hash * 31 + c))
  ∧ getDailyTarget date
    = Z.land (spec_hash31 (dateString date)) 0x7fffffff mod 99 + 1
  ∧ 1 ≤ getDailyTarget date ≤ 99
  ∧ (∀ date', dateString date' = dateString date ->
              getDailyTarget date' = getDailyTarget date).
Proof.
  split; [apply hash_step|].
  split; [apply getDailyTarget_unfold|].
  split.
  - rewrite getDailyTarget_unfold.
    pose proof (Z.mod_pos_bound
                  (Z.land (spec_hash31 (dateString date)) 0x7fffffff) 99).
    lia.
  - intros date' H. rewrite !getDailyTarget_unfold, H. reflexivity.
Qed.

Lemma getDailyTarget_rolling_hash_witness :
  getDailyTarget {| getFullYear := 2026; getMonth := 1; getDate := 15 |} = 55
  ∧ getDailyTarget {| getFullYear := 2026; getMonth := 1; getDate := 15 |}
    = getDailyTarget {| getFullYear := 2026; getMonth := 1; getDate := 15 |}.
Proof.
  split; [vm_compute; reflexivity|].
  apply (getDailyTarget_rolling_hash
           {| getFullYear := 2026; getMonth := 1; getDate := 15 |}).
  reflexivity.
Defined.

(** ** The statistics update *)




(** ** evaluate *)

Lemma acc_of_snoc (buf : str) (ch : Z) :
  Some (default 0 (acc_of buf) * 10 + (ch - 48)) = acc_of (buf ++ [ch]).
Proof.
  destruct buf as [|c buf]; [reflexivity|].
  change (acc_of ((c :: buf) ++ [ch]))
    with (Some (Number_digits ((c :: buf) ++ [ch]))).
  rewrite Number_digits_snoc. reflexivity.
Qed.

(** The scanner and the reference parser read the same expression. *)
Lemma scan_spec_parse (expr : str) : ∀ tokens buf,
  match scan expr tokens buf, spec_parse expr (acc_of buf) with
  | None, None => True
  | None, Some _ => False
  | Some (_, buf'), None => buf' = []
  | Some (tokens', buf'), Some (n0, rest) =>
      buf' ≠ []
      ∧ ∃ first toks,
          tokens' ++ [ {| type := num; value := buf' |} ]
          = tokens ++ {| type := num; value := first |} :: toks
          ∧ Encodes toks rest ∧ Number_digits first = n0
  end.
Proof.
  induction expr as [|ch rest IH]; intros tokens buf.
  - simpl. destruct buf as [|c buf]; [reflexivity|]. simpl acc_of.
    split; [discriminate|].
    exists (c :: buf), []. repeat split. constructor.
  - cbn [scan spec_parse]. destruct (isDigit ch) eqn:Hd.
    + rewrite acc_of_snoc. apply IH.
    + destruct (operator_of_cases ch)
        as [[E Ho]|[[E Ho]|[[E Ho]|[[E Ho]|[Hi Ho]]]]];
        try (rewrite Hi, Ho; exact I).
      all: assert (includes OPERATORS ch = true) as ->
          by (subst ch; reflexivity).
      all: rewrite Ho.
      all: destruct buf as [|c buf]; [exact I|].
      all: cbn [streq acc_of].
      all: specialize
             (IH (tokens ++ [ {| type := num; value := c :: buf |};
                              {| type := op; value := [ch] |} ]) []).
      all: simpl acc_of in IH.
      all: destruct (scan rest _ []) as [[tokens' buf']|];
             destruct (spec_parse rest None) as [[m tl]|]; try exact IH.
      all: destruct IH as [Hne (first & toks & Heq & Henc & Hnum)].
      all: split; [exact Hne|].
      all: exists (c :: buf), ({| type := op; value := [ch] |}
                          :: {| type := num; value := first |} :: toks).
      all: split; [rewrite Heq, <- app_assoc; reflexivity|].
      all: split; [|reflexivity].
      all: rewrite <- Hnum; constructor; assumption.
Qed.

Lemma pop_snoc (ns : list Z) (x : Z) : pop (ns ++ [x]) = (x, ns).
Proof. unfold pop. rewrite last_last, removelast_last. reflexivity. Qed.

(** The first loop of the source computes the first pass of the
    specification: [nums] ends with the value of the chain in progress. *)
Lemma mulDivLoop_spec (toks : list token) (rest : list (operator * Z)) :
  Encodes toks rest ->
  ∀ ns cur ops_,
    mulDivLoop toks (ns ++ [cur]) ops_
    = match spec_resolveMulDiv cur rest with
      | None => None
      | Some (v, flat) =>
          Some (ns ++ v :: map snd flat,
                ops_ ++ map (fun p => addop_str (fst p)) flat)
      end.
Proof.
  induction 1 as [|ch o s toks rest Ho Henc IH]; intros ns cur ops_.
  - simpl. rewrite app_nil_r. reflexivity.
  - simpl mulDivLoop.
    destruct (operator_of_cases ch)
      as [[-> Ho']|[[-> Ho']|[[-> Ho']|[[-> Ho']|[_ Ho']]]]];
      rewrite Ho' in Ho; inversion Ho; subst o; simpl.
    + rewrite IH. destruct (spec_resolveMulDiv _ rest) as [[v flat]|];
        [|reflexivity].
      simpl. rewrite <- !app_assoc. reflexivity.
    + rewrite IH. destruct (spec_resolveMulDiv _ rest) as [[v flat]|];
        [|reflexivity].
      simpl. rewrite <- !app_assoc. reflexivity.
    + rewrite last_last, removelast_last. apply IH.
    + rewrite last_last, removelast_last.
      destruct (Z.eqb_spec (Number_digits s) 0) as [E|E].
      * rewrite decide_True by assumption. reflexivity.
      * rewrite decide_False by assumption.
        destruct (Z.eqb_spec (cur mod Number_digits s) 0) as [E'|E']; simpl.
        -- rewrite decide_True by (apply Z.mod_divide; assumption).
           apply IH.
        -- rewrite decide_False; [reflexivity|].
           intros Hdiv. apply E'. apply Z.mod_divide; assumption.
Qed.

(** The second loop of the source is the left-to-right fold. *)
Lemma addSubLoop_spec (flat : list (addop * Z)) : ∀ pre i result,
  length pre = S i ->
  addSubLoop (map (fun p => addop_str (fst p)) flat) i
             (pre ++ map snd flat) result
  = spec_foldAddSub result flat.
Proof.
  induction flat as [|[o v] flat IH]; intros pre i result Hlen;
    [reflexivity|].
  simpl map. simpl addSubLoop.
  rewrite (list_lookup_middle pre (map snd flat) v (S i)) by congruence.
  rewrite (cons_middle v pre), app_assoc. rewrite IH.
  - destruct o; reflexivity.
  - rewrite length_app. simpl. lia.
Qed.

(** [evaluate] is the two-pass evaluation of the specification. *)
Lemma evaluate_refines (expr : str) : evaluate expr = spec_evaluate expr.
Proof.
  unfold evaluate, spec_evaluate.
  pose proof (scan_spec_parse expr [] []) as H. simpl acc_of in H.
  destruct (scan expr [] []) as [[tokens' buf']|];
    destruct (spec_parse expr None) as [[n0 rest]|];
    try contradiction; try reflexivity.
  - destruct H as [Hne (first & toks & Heq & Henc & Hnum)].
    rewrite streq_neq by assumption.
    rewrite Heq. cbn [app type value].
    destruct (decide (num ≠ num)) as [Hc|_]; [contradiction Hc; reflexivity|].
    rewrite Hnum.
    pose proof (mulDivLoop_spec toks rest Henc [] n0 []) as Hm.
    cbn [app] in Hm. rewrite Hm.
    destruct (spec_resolveMulDiv n0 rest) as [[v flat]|]; [|reflexivity].
    cbn [lookup list_lookup default]. f_equal.
    apply (addSubLoop_spec flat [v] 0%nat v). reflexivity.
  - subst buf'. reflexivity.
Qed.

(** C3.  On every expression of at most 15 characters (where the numbers
    of the source are exact), [evaluate] resolves every [×] and [÷] left to
    right first, which leaves numbers separated by [+] and [-] only, and
    then folds those left to right; ["6×7"] is 42 and ["2+3×4"] is 14. *)
Theorem evaluate_two_pass :
  (∀ expr, SafeExpr expr -> evaluate expr = spec_evaluate expr)
  ∧ evaluate (js "6×7") = Some 42
  ∧ evaluate (js "2+3×4") = Some 14.
Proof.
  split; [intros expr _; apply evaluate_refines|].
  split; vm_compute; reflexivity.
Qed.

Lemma evaluate_two_pass_witness :
  evaluate (js "9-8÷4×3+1") = spec_evaluate (js "9-8÷4×3+1").
Proof.
  apply (proj1 evaluate_two_pass (js "9-8÷4×3+1")).
  unfold SafeExpr. simpl. lia.
Defined.

(** *** When evaluation fails *)

Lemma BadChar_cons (ch : Z) (rest : str) :
  BadChar (ch :: rest)
  ↔ (isDigit ch = false ∧ ¬ isOperator ch) ∨ BadChar rest.
Proof.
  unfold BadChar. split.
  - intros (c & Hin & H). apply elem_of_cons in Hin as [->|Hin].
    + left. exact H.
    + right. eauto.
  - intros [H|(c & Hin & H)].
    + exists ch. split; [apply elem_of_cons; auto|exact H].
    + exists c. split; [apply elem_of_cons; auto|exact H].
Qed.

Lemma BadChar_nil : ¬ BadChar [].
Proof. intros (c & Hin & _). apply elem_of_nil in Hin. exact Hin. Qed.

Lemma StartsWithOperator_cons (ch : Z) (rest : str) :
  StartsWithOperator (ch :: rest) ↔ isOperator ch.
Proof.
  split.
  - intros (o & r & [= -> ->] & H). exact H.
  - intros H. exists ch, rest. auto.
Qed.

Lemma StartsWithOperator_nil : ¬ StartsWithOperator [].
Proof. intros (o & r & H & _). discriminate. Qed.

Lemma AdjacentOperators_cons (ch : Z) (rest : str) :
  AdjacentOperators (ch :: rest)
  ↔ (isOperator ch ∧ StartsWithOperator rest) ∨ AdjacentOperators rest.
Proof.
  split.
  - intros (pre & o1 & o2 & r & Heq & H1 & H2). destruct pre as [|c pre].
    + injection Heq as -> ->. left. split; [exact H1|].
      exists o2, r. auto.
    + injection Heq as -> ->. right. exists pre, o1, o2, r. auto.
  - intros [[H1 (o2 & r & -> & H2)]|(pre & o1 & o2 & r & -> & H1 & H2)].
    + exists [], ch, o2, r. auto.
    + exists (ch :: pre), o1, o2, r. auto.
Qed.

Lemma AdjacentOperators_nil : ¬ AdjacentOperators [].
Proof. intros ([|c pre] & o1 & o2 & r & Heq & _); discriminate. Qed.

Lemma EndsMidOperator_cons (ch : Z) (rest : str) :
  EndsMidOperator (ch :: rest)
  ↔ (rest = [] ∧ isOperator ch) ∨ EndsMidOperator rest.
Proof.
  split.
  - intros (pre & o & Heq & H). destruct pre as [|c pre].
    + injection Heq as -> ->. auto.
    + injection Heq as -> ->. right. exists pre, o. auto.
  - intros [[-> H]|(pre & o & -> & H)].
    + exists [], ch. auto.
    + exists (ch :: pre), o. auto.
Qed.

Lemma EndsMidOperator_nil : ¬ EndsMidOperator [].
Proof. intros ([|c pre] & o & Heq & _); discriminate. Qed.

(** The reference parser fails exactly on the malformed expressions. *)
Lemma spec_parse_None (expr : str) : ∀ acc,
  spec_parse expr acc = None
  ↔ BadChar expr
    ∨ (acc = None ∧ (expr = [] ∨ StartsWithOperator expr))
    ∨ AdjacentOperators expr
    ∨ EndsMidOperator expr.
Proof.
  induction expr as [|ch rest IH]; intros acc.
  - pose proof BadChar_nil. pose proof AdjacentOperators_nil.
    pose proof EndsMidOperator_nil.
    simpl. destruct acc; split; intros; try discriminate; intuition congruence.
  - cbn [spec_parse].
    rewrite BadChar_cons, AdjacentOperators_cons, EndsMidOperator_cons,
      StartsWithOperator_cons.
    destruct (isDigit ch) eqn:Hd.
    + pose proof (digit_not_operator ch Hd). rewrite IH.
      intuition congruence.
    + destruct (operator_of ch) as [o|] eqn:Ho.
      * assert (isOperator ch) by (unfold isOperator; rewrite Ho; eauto).
        destruct acc as [n|].
        -- specialize (IH None).
           destruct (spec_parse rest None) as [[m tl]|].
           ++ split; [discriminate|]. intros Hr.
              assert (Some (m, tl) = None) as Habs; [|discriminate Habs].
              apply IH. intuition congruence.
           ++ split; [|reflexivity]. intros _.
              destruct IH as [IH _]. specialize (IH eq_refl).
              intuition congruence.
        -- intuition congruence.
      * assert (¬ isOperator ch)
          by (unfold isOperator; rewrite Ho; intros [? ?]; discriminate).
        intuition congruence.
Qed.

(** The first pass fails exactly at a failing division. *)
Lemma spec_resolveMulDiv_None (rest : list (operator * Z)) : ∀ cur,
  spec_resolveMulDiv cur rest = None ↔ DivisionFails cur rest.
Proof.
  induction rest as [|[o n] rest IH]; intros cur.
  - simpl. split; [discriminate|]. inversion 1.
  - destruct o as [a|[|]]; simpl.
    + specialize (IH n). destruct (spec_resolveMulDiv n rest) as [[v flat]|].
      * split; [discriminate|]. inversion 1; subst.
        assert (Some (v, flat) = None) as Habs by (apply IH; assumption).
        discriminate Habs.
      * split; [|reflexivity]. intros _. constructor. apply IH. reflexivity.
    + rewrite IH. split.
      * intros H. constructor. exact H.
      * inversion 1; subst. assumption.
    + destruct (decide (n = 0)) as [->|Hn].
      * split; [|reflexivity]. intros _. constructor.
      * destruct (decide ((n | cur))) as [Hd|Hd].
        -- rewrite IH. split.
           ++ intros H. apply div_later; assumption.
           ++ inversion 1; subst; try contradiction. assumption.
        -- split; [|reflexivity]. intros _. apply div_inexact; assumption.
Qed.

Lemma evaluate_None_iff (expr : str) :
  evaluate expr = None
  ↔ expr = [] ∨ BadChar expr ∨ OperatorWithoutNumber expr
    ∨ EndsMidOperator expr ∨ DivisionFailure expr.
Proof.
  rewrite evaluate_refines. unfold spec_evaluate, OperatorWithoutNumber,
    DivisionFailure.
  pose proof (spec_parse_None expr None) as Hp.
  destruct (spec_parse expr None) as [[n0 rest]|].
  - assert (¬ (BadChar expr
               ∨ (@None Z = None ∧ (expr = [] ∨ StartsWithOperator expr))
               ∨ AdjacentOperators expr ∨ EndsMidOperator expr)) as Hwf.
    { intros H. apply Hp in H. discriminate. }
    pose proof (spec_resolveMulDiv_None rest n0) as Hr.
    destruct (spec_resolveMulDiv n0 rest) as [[v flat]|].
    + split; [discriminate|].
      intros [H|[H|[[H|H]|[H|(n & r & [= -> ->] & H)]]]];
        try (exfalso; apply Hwf; tauto).
      apply Hr in H. discriminate.
    + split; [|reflexivity]. intros _.
      do 4 right. exists n0, rest. split; [reflexivity|].
      apply Hr. reflexivity.
  - split; [|reflexivity]. intros _.
    destruct Hp as [Hp _]. specialize (Hp eq_refl). tauto.
Qed.

(** C4.  On every expression of at most 15 characters (where the numbers
    of the source are exact), [evaluate] answers [null] exactly when the
    expression is empty, holds a character that is neither a digit nor an
    operator, has an operator without a preceding number, ends in an
    operator, or divides by 0 or with a remainder; ["10÷3"] and ["5÷0"]
    give [null]. *)
Theorem evaluate_null_exactly :
  (∀ expr,
     SafeExpr expr ->
     (evaluate expr = None
      ↔ expr = [] ∨ BadChar expr ∨ OperatorWithoutNumber expr
        ∨ EndsMidOperator expr ∨ DivisionFailure expr))
  ∧ evaluate (js "10÷3") = None
  ∧ evaluate (js "5÷0") = None.
Proof.
  split; [intros expr _; apply evaluate_None_iff|].
  split; vm_compute; reflexivity.
Qed.

Lemma evaluate_null_exactly_witness :
  evaluate (js "12÷4+") = None
  ↔ js "12÷4+" = [] ∨ BadChar (js "12÷4+")
    ∨ OperatorWithoutNumber (js "12÷4+")
    ∨ EndsMidOperator (js "12÷4+") ∨ DivisionFailure (js "12÷4+").
Proof.
  apply (proj1 evaluate_null_exactly (js "12÷4+")).
  unfold SafeExpr. simpl. lia.
Defined.

(** ** validateGuess *)

Lemma split_no_separator (sep : Z) (s : str) :
  occurrences sep s = 0%nat -> split sep s = [s].
Proof.
  unfold occurrences. induction s as [|x s IH]; intros H; [reflexivity|].
  simpl in *. destruct (Z.eq_dec x sep) as [E|E]; [discriminate|].
  rewrite decide_False by assumption. rewrite IH by assumption. reflexivity.
Qed.

Lemma split_at_separator (sep : Z) (l r : str) :
  occurrences sep l = 0%nat -> split sep (l ++ sep :: r) = l :: split sep r.
Proof.
  unfold occurrences. induction l as [|x l IH]; intros H.
  - simpl. rewrite decide_True by reflexivity. reflexivity.
  - simpl in *. destruct (Z.eq_dec x sep) as [E|E]; [discriminate|].
    rewrite decide_False by assumption. rewrite IH by assumption.
    reflexivity.
Qed.

(** [split] yields one part more than there are separators. *)
Lemma split_length (sep : Z) (s : str) :
  length (split sep s) = S (occurrences sep s).
Proof.
  unfold occurrences. induction s as [|x s IH]; [reflexivity|].
  simpl. destruct (Z.eq_dec x sep) as [E|E].
  - rewrite decide_True by assumption. simpl. rewrite IH. reflexivity.
  - rewrite decide_False by assumption.
    destruct (split sep s) as [|part parts]; [discriminate|].
    simpl in *. exact IH.
Qed.

Lemma split_one_separator (sep : Z) (l r : str) :
  occurrences sep (l ++ sep :: r) = 1%nat -> split sep (l ++ sep :: r) = [l; r].
Proof.
  unfold occurrences. rewrite count_occ_app, count_occ_cons_eq by reflexivity.
  intros H. rewrite split_at_separator by (unfold occurrences; lia).
  rewrite split_no_separator by (unfold occurrences; lia). reflexivity.
Qed.

Lemma validateGuess_length (guess : str) (target : Z) :
  length guess ≠ 6%nat -> validateGuess guess target = invalid reason_length.
Proof.
  intros H. unfold validateGuess. rewrite decide_True by exact H.
  reflexivity.
Qed.

Lemma validateGuess_one_equals (guess : str) (target : Z) :
  length guess = 6%nat -> occurrences 61 guess ≠ 1%nat ->
  validateGuess guess target = invalid reason_one_equals.
Proof.
  intros Hlen Hocc. unfold validateGuess, reason_one_equals.
  rewrite decide_False by (intros H; exact (H Hlen)).
  pose proof (split_length 61 guess) as Hs.
  destruct (split 61 guess) as [|a [|b [|c parts]]]; simpl in Hs;
    [reflexivity|reflexivity|congruence|reflexivity].
Qed.

(** What [validateGuess] does once the guess has six characters and one
    [=], in terms of the two sides. *)
Lemma validateGuess_sides (l r : str) (target : Z) :
  length (l ++ EQUALS ++ r) = 6%nat ->
  occurrences 61 (l ++ EQUALS ++ r) = 1%nat ->
  validateGuess (l ++ EQUALS ++ r) target
  = if decide (l = [] ∨ r = []) then invalid reason_sides
    else if decide (r = String_ target) then
      match evaluate l with
      | None => invalid reason_expression
      | Some leftVal =>
          if decide (leftVal = target)
          then {| valid := true; error := None |}
          else invalid (reason_value leftVal target)
      end
    else invalid (reason_right target).
Proof.
  change (EQUALS ++ r) with (61 :: r). intros Hlen Hocc.
  unfold validateGuess, reason_sides, reason_expression, reason_value,
    reason_right.
  rewrite decide_False by (intros H; exact (H Hlen)).
  rewrite split_one_separator by assumption.
  destruct (decide (l = [] ∨ r = [])) as [Hs|Hs].
  - rewrite decide_True; [reflexivity|].
    destruct Hs as [-> | ->]; auto.
  - rewrite decide_False.
    2:{ intros [H|H]; apply Hs; [left|right];
        apply length_zero_iff_nil; exact H. }
    pose proof (rightSideGuard_spec r target) as Hg.
    destruct (rightSideGuard Number_ r target).
    + rewrite decide_False; [reflexivity|].
      intros H. apply Hg in H. discriminate.
    + rewrite decide_True by (apply Hg; reflexivity).
      destruct (evaluate l) as [leftVal|]; [|reflexivity].
      destruct (decide (leftVal = target)) as [E|E].
      * rewrite decide_False by (intros H; exact (H E)). reflexivity.
      * rewrite decide_True by exact E. reflexivity.
Qed.

(** No two checks give the same reason. *)
Lemma reasons_distinct (leftVal target target' : Z) :
  NoDup [reason_length; reason_one_equals; reason_sides;
         reason_right target; reason_expression;
         reason_value leftVal target'].
Proof.
  unfold reason_right, reason_value.
  repeat (apply NoDup_cons_2;
          [rewrite ?not_elem_of_cons; repeat split;
           try apply not_elem_of_nil; discriminate|]).
  apply NoDup_nil_2.
Qed.

(** C5.  [validateGuess] checks, in this order and stopping at the first
    failure: the length (any string that is not six characters long gets
    the length reason, whatever it holds); exactly one [=]; both sides
    non-empty; the right side is the decimal string of the target,
    verbatim; the left side evaluates; its value is the target.  A guess
    that passes all six is valid.  The six reasons are pairwise distinct. *)
Theorem validateGuess_checks (guess : str) (target : Z) :
  (length guess ≠ 6%nat -> validateGuess guess target = invalid reason_length)
  ∧ (length guess = 6%nat -> occurrences 61 guess ≠ 1%nat ->
     validateGuess guess target = invalid reason_one_equals)
  ∧ (∀ l r,
       length guess = 6%nat -> occurrences 61 guess = 1%nat ->
       guess = l ++ EQUALS ++ r ->
       (l = [] ∨ r = [] ->
        validateGuess guess target = invalid reason_sides)
       ∧ (l ≠ [] -> r ≠ [] -> r ≠ String_ target ->
          validateGuess guess target = invalid (reason_right target))
       ∧ (l ≠ [] -> r = String_ target -> evaluate l = None ->
          validateGuess guess target = invalid reason_expression)
       ∧ (∀ leftVal,
            l ≠ [] -> r = String_ target -> evaluate l = Some leftVal ->
            leftVal ≠ target ->
            validateGuess guess target
            = invalid (reason_value leftVal target))
       ∧ (l ≠ [] -> r = String_ target -> evaluate l = Some target ->
          validateGuess guess target = {| valid := true; error := None |}))
  ∧ (∀ leftVal target',
       NoDup [reason_length; reason_one_equals; reason_sides;
              reason_right target; reason_expression;
              reason_value leftVal target']).
Proof.
  split; [apply validateGuess_length|].
  split; [apply validateGuess_one_equals|].
  split; [|intros; apply reasons_distinct].
  intros l r Hlen Hocc ->.
  rewrite (validateGuess_sides l r target Hlen Hocc).
  repeat split.
  - intros H. rewrite decide_True by exact H. reflexivity.
  - intros Hl Hr Hne. rewrite decide_False by tauto.
    rewrite decide_False by exact Hne. reflexivity.
  - intros Hl -> He. pose proof (String_nonempty target).
    rewrite decide_False by tauto. rewrite decide_True by reflexivity.
    rewrite He. reflexivity.
  - intros leftVal Hl -> He Hne. pose proof (String_nonempty target).
    rewrite decide_False by tauto. rewrite decide_True by reflexivity.
    rewrite He. rewrite decide_False by exact Hne. reflexivity.
  - intros Hl -> He. pose proof (String_nonempty target).
    rewrite decide_False by tauto. rewrite decide_True by reflexivity.
    rewrite He. rewrite decide_True by reflexivity. reflexivity.
Qed.

Lemma validateGuess_checks_witness :
  validateGuess (js "1+1=2") 2 = invalid reason_length
  ∧ validateGuess (js "6×7=42") 42 = {| valid := true; error := None |}
  ∧ validateGuess (js "6×6=42") 42 = invalid (reason_value 36 42).
Proof.
  split; [|split].
  - apply (validateGuess_checks (js "1+1=2") 2). vm_compute. discriminate.
  - apply (validateGuess_checks (js "6×7=42") 42)
      with (l := js "6×7") (r := js "42");
      solve [vm_compute; reflexivity | vm_compute; discriminate].
  - apply (validateGuess_checks (js "6×6=42") 42)
      with (l := js "6×6") (r := js "42");
      solve [vm_compute; reflexivity | vm_compute; discriminate].
Defined.

(** ** getGuessResult *)

Lemma spec_pass1_pool (g s : str) :
  snd (spec_pass1 g s) = poolOf (usedOf g s) s.
Proof.
  revert s. induction g as [|a g IH]; intros [|b s]; try reflexivity.
  simpl. specialize (IH s). destruct (spec_pass1 g s) as [ms pool].
  simpl in IH. destruct (a =? b); simpl; congruence.
Qed.

Lemma spec_pass1_cons (a b : Z) (g s : str) :
  fst (spec_pass1 (a :: g) (b :: s))
  = (if a =? b then None else Some a) :: fst (spec_pass1 g s).
Proof.
  simpl. destruct (spec_pass1 g s) as [ms pool].
  destruct (a =? b); reflexivity.
Qed.

Lemma spec_pass1_keeps (g : str) : ∀ s,
  length g = length s -> Forall2 Keeps (fst (spec_pass1 g s)) g.
Proof.
  induction g as [|a g IH]; intros [|b s] Hlen; try discriminate.
  - constructor.
  - rewrite spec_pass1_cons. constructor.
    + unfold Keeps. destruct (a =? b); auto.
    + apply IH. simpl in Hlen. lia.
Qed.

Lemma usedOf_length (g : str) : ∀ s,
  length g = length s -> length (usedOf g s) = length g.
Proof.
  induction g as [|a g IH]; intros [|b s] Hlen; try discriminate;
    [reflexivity|].
  simpl in *. rewrite IH by lia. reflexivity.
Qed.

Lemma insert_middle {A} (pre : list A) (x y : A) (suf : list A) (k : nat) :
  length pre = k -> <[k:=y]> (pre ++ x :: suf) = pre ++ y :: suf.
Proof.
  intros <-. rewrite insert_app_r_alt by lia.
  rewrite Nat.sub_diag. reflexivity.
Qed.

Lemma greenStep_at (k : nat) (gPre gSuf sPre sSuf : str) (a b : Z)
  (rPre rSuf : list CellState) (r : CellState)
  (uPre uSuf : list bool) (x : bool) :
  length gPre = k -> length sPre = k ->
  length rPre = k -> length uPre = k ->
  greenStep (gPre ++ a :: gSuf) (sPre ++ b :: sSuf)
            (rPre ++ r :: rSuf, uPre ++ x :: uSuf) k
  = if a =? b then (rPre ++ correct :: rSuf, uPre ++ true :: uSuf)
    else (rPre ++ r :: rSuf, uPre ++ x :: uSuf).
Proof.
  intros HgP HsP HrP HuP. unfold greenStep.
  rewrite (list_lookup_middle gPre gSuf a k) by congruence.
  rewrite (list_lookup_middle sPre sSuf b k) by congruence.
  rewrite !insert_middle by assumption.
  destruct (Z.eqb_spec a b) as [E|E].
  - rewrite bool_decide_eq_true_2 by congruence. reflexivity.
  - rewrite bool_decide_eq_false_2 by congruence. reflexivity.
Qed.

(** First pass of the source. *)
Lemma greens_loop (m : nat) : ∀ k gPre gSuf sPre sSuf rPre uPre,
  length gSuf = m -> length sSuf = m ->
  length gPre = k -> length sPre = k ->
  length rPre = k -> length uPre = k ->
  foldl (greenStep (gPre ++ gSuf) (sPre ++ sSuf))
        (rPre ++ replicate m absent, uPre ++ replicate m false) (seq k m)
  = (rPre ++ map resMark (fst (spec_pass1 gSuf sSuf)),
     uPre ++ usedOf gSuf sSuf).
Proof.
  induction m as [|m IH];
    intros k gPre gSuf sPre sSuf rPre uPre Hg Hs HgP HsP HrP HuP.
  - destruct gSuf; [|discriminate]. reflexivity.
  - destruct gSuf as [|a gSuf]; [discriminate|].
    destruct sSuf as [|b sSuf]; [discriminate|].
    cbn [seq foldl replicate].
    rewrite greenStep_at by assumption.
    rewrite spec_pass1_cons. cbn [usedOf map].
    rewrite (cons_middle a gPre), (cons_middle b sPre), !app_assoc.
    simpl in Hg, Hs.
    destruct (a =? b).
    + rewrite (cons_middle correct rPre), (cons_middle true uPre), !app_assoc.
      rewrite IH; rewrite ?length_app; simpl; try lia.
      rewrite <- !app_assoc. reflexivity.
    + rewrite (cons_middle absent rPre), (cons_middle false uPre), !app_assoc.
      rewrite IH; rewrite ?length_app; simpl; try lia.
      rewrite <- !app_assoc. reflexivity.
Qed.

Lemma consume2_length (c : Z) (used : list bool) : ∀ sol used',
  consume2 c used sol = Some used' -> length used' = length used.
Proof.
  induction used as [|b used IH]; intros [|x sol] used' H; try discriminate.
  simpl in H. destruct (negb b && (x =? c)).
  - injection H as <-. reflexivity.
  - destruct (consume2 c used sol) as [used''|] eqn:E; [|discriminate].
    injection H as <-. simpl. f_equal. eapply IH. exact E.
Qed.

(** Marking the first unused matching position consumes the first matching
    character of the pool. *)
Lemma consume_poolOf (c : Z) (used : list bool) : ∀ sol,
  consume c (poolOf used sol)
  = match consume2 c used sol with
    | Some used' => Some (poolOf used' sol)
    | None => None
    end.
Proof.
  induction used as [|b used IH]; intros [|x sol]; try reflexivity.
  simpl. destruct b; simpl.
  - rewrite IH. destruct (consume2 c used sol); reflexivity.
  - destruct (x =? c); [reflexivity|].
    rewrite IH. destruct (consume2 c used sol); reflexivity.
Qed.

(** The inner loop of the second pass. *)
Lemma yellowScan_spec (len : nat) :
  ∀ j0 uPre uSuf sPre sSuf g k a result,
    length uSuf = len -> length sSuf = len ->
    length uPre = j0 -> length sPre = j0 ->
    g !! k = Some a ->
    yellowScan (seq j0 len) g (sPre ++ sSuf) k (result, uPre ++ uSuf)
    = match consume2 a uSuf sSuf with
      | Some uSuf' => (<[k:=present]> result, uPre ++ uSuf')
      | None => (result, uPre ++ uSuf)
      end.
Proof.
  induction len as [|len IH];
    intros j0 uPre uSuf sPre sSuf g k a result Hu Hs HuP HsP Hg.
  - destruct uSuf; [|discriminate]. reflexivity.
  - destruct uSuf as [|b uSuf]; [discriminate|].
    destruct sSuf as [|x sSuf]; [discriminate|].
    cbn [seq yellowScan consume2].
    rewrite (list_lookup_middle uPre uSuf b j0) by congruence.
    rewrite (list_lookup_middle sPre sSuf x j0) by congruence.
    rewrite Hg. change (default false (Some b)) with b.
    destruct (Z.eqb_spec x a) as [E|E].
    + rewrite bool_decide_eq_true_2 by congruence.
      destruct b; cbn [negb andb].
      * rewrite (cons_middle true uPre), (cons_middle x sPre), !app_assoc.
        simpl in Hu, Hs.
        rewrite (IH _ _ _ _ _ g k a result);
          rewrite ?length_app; simpl; try lia; try assumption.
        destruct (consume2 a uSuf sSuf); rewrite <- ?app_assoc; reflexivity.
      * rewrite insert_middle by assumption. reflexivity.
    + rewrite bool_decide_eq_false_2 by congruence.
      rewrite andb_false_r.
      rewrite (cons_middle b uPre), (cons_middle x sPre), !app_assoc.
      simpl in Hu, Hs.
      rewrite (IH _ _ _ _ _ g k a result);
          rewrite ?length_app; simpl; try lia; try assumption.
      destruct (consume2 a uSuf sSuf); rewrite <- ?app_assoc; reflexivity.
Qed.

(** Second pass of the source. *)
Lemma yellows_loop (ms : list (option Z)) (gSuf : str) :
  Forall2 Keeps ms gSuf ->
  ∀ k gPre rPre used s,
    length gPre = k -> length rPre = k ->
    length used = EQUATION_LENGTH -> length s = EQUATION_LENGTH ->
    fst (foldl (yellowStep (gPre ++ gSuf) s)
               (rPre ++ map resMark ms, used) (seq k (length ms)))
    = rPre ++ spec_pass2 ms (poolOf used s).
Proof.
  induction 1 as [|m a ms gSuf Hk _ IH];
    intros k gPre rPre used s HgP HrP Hused Hs.
  - reflexivity.
  - cbn [length seq foldl map spec_pass2]. unfold yellowStep at 2.
    cbn [fst].
    rewrite (list_lookup_middle rPre (map resMark ms) (resMark m) k)
      by congruence.
    rewrite (cons_middle a gPre), app_assoc.
    destruct Hk as [-> | ->]; cbn [resMark].
    + rewrite bool_decide_eq_true_2 by reflexivity.
      rewrite (cons_middle correct rPre), app_assoc.
      rewrite IH; rewrite ?length_app; simpl; try lia.
      rewrite <- app_assoc. reflexivity.
    + rewrite bool_decide_eq_false_2 by discriminate.
      rewrite (yellowScan_spec EQUATION_LENGTH 0 [] used [] s _ k a);
        try assumption; try reflexivity.
      2:{ rewrite <- app_assoc. apply list_lookup_middle. congruence. }
      cbn [app]. rewrite consume_poolOf.
      destruct (consume2 a used s) as [used'|] eqn:E.
      * rewrite insert_middle by assumption.
        rewrite (cons_middle present rPre), app_assoc.
        rewrite IH; rewrite ?length_app; simpl; try lia.
        -- rewrite <- app_assoc. reflexivity.
        -- rewrite (consume2_length _ _ _ _ E). assumption.
      * rewrite (cons_middle absent rPre), app_assoc.
        rewrite IH; rewrite ?length_app; simpl; try lia.
        rewrite <- app_assoc. reflexivity.
Qed.

Lemma spec_pass1_length (g : str) : ∀ s,
  length g = length s -> length (fst (spec_pass1 g s)) = length g.
Proof.
  induction g as [|a g IH]; intros [|b s] Hlen; try discriminate;
    [reflexivity|].
  rewrite spec_pass1_cons. simpl in *. rewrite IH by lia. reflexivity.
Qed.

(** The scorer of the source is the two-pass scorer of the specification. *)
Lemma scoreAgainst_refines (canonical guess : str) :
  length guess = EQUATION_LENGTH -> length canonical = EQUATION_LENGTH ->
  scoreAgainst canonical guess = spec_score guess canonical.
Proof.
  intros Hg Hs. unfold scoreAgainst, greens, yellows.
  pose proof (greens_loop EQUATION_LENGTH 0 [] guess [] canonical [] []
                Hg Hs eq_refl eq_refl eq_refl eq_refl) as H1.
  cbn [app] in H1. rewrite H1.
  assert (length guess = length canonical) as Hlen by congruence.
  pose proof (yellows_loop _ _ (spec_pass1_keeps guess canonical Hlen)
                0%nat [] [] (usedOf guess canonical) canonical
                eq_refl eq_refl) as H2.
  rewrite spec_pass1_length, Hg in H2 by assumption.
  cbn [app] in H2. rewrite H2.
  - unfold spec_score. rewrite <- spec_pass1_pool.
    destruct (spec_pass1 guess canonical); reflexivity.
  - rewrite usedOf_length; assumption.
  - assumption.
Qed.

Lemma consume_occurrences (c a : Z) (pool : list Z) : ∀ pool',
  consume a pool = Some pool' ->
  occurrences c pool
  = ((if (a =? c)%Z then 1 else 0) + occurrences c pool')%nat.
Proof.
  unfold occurrences.
  induction pool as [|x pool IH]; intros pool' H; [discriminate|].
  simpl in H. destruct (Z.eqb_spec x a) as [E|E].
  - injection H as <-. subst x. simpl.
    destruct (Z.eq_dec a c) as [E'|E'].
    + rewrite (proj2 (Z.eqb_eq a c) E'). reflexivity.
    + rewrite (proj2 (Z.eqb_neq a c) E'). reflexivity.
  - destruct (consume a pool) as [p|]; [|discriminate].
    injection H as <-. simpl. specialize (IH p eq_refl).
    destruct (Z.eq_dec x c); lia.
Qed.

Lemma spec_pass2_credited (c : Z) (ms : list (option Z)) (gs : str) :
  Forall2 Keeps ms gs ->
  ∀ pool,
    (credited c gs (spec_pass2 ms pool)
     ≤ greenCount c ms gs + occurrences c pool)%nat.
Proof.
  induction 1 as [|m a ms gs Hk _ IH]; intros pool; [simpl; lia|].
  destruct Hk as [-> | ->]; cbn [spec_pass2 credited greenCount].
  - specialize (IH pool).
    rewrite bool_decide_eq_true_2 by reflexivity. cbn [orb].
    rewrite andb_true_r. destruct (a =? c); lia.
  - destruct (consume a pool) as [pool'|] eqn:E.
    + specialize (IH pool').
      rewrite (consume_occurrences c a pool pool' E).
      cbn [credited].
      rewrite bool_decide_eq_false_2 by discriminate.
      rewrite bool_decide_eq_true_2 by reflexivity. cbn [orb].
      rewrite andb_true_r. destruct (a =? c); lia.
    + specialize (IH pool). cbn [credited].
      rewrite !bool_decide_eq_false_2 by discriminate. cbn [orb].
      rewrite andb_false_r. lia.
Qed.

Lemma spec_pass1_count (c : Z) (g : str) : ∀ s,
  (greenCount c (fst (spec_pass1 g s)) g + occurrences c (snd (spec_pass1 g s))
   ≤ occurrences c s)%nat.
Proof.
  unfold occurrences.
  induction g as [|a g IH]; intros [|b s]; try (simpl; lia).
  specialize (IH s). simpl.
  destruct (spec_pass1 g s) as [ms pool]. simpl in IH.
  destruct (Z.eqb_spec a b) as [E|E]; simpl.
  - subst b. destruct (Z.eq_dec a c) as [E'|E'].
    + rewrite (proj2 (Z.eqb_eq a c) E'). lia.
    + rewrite (proj2 (Z.eqb_neq a c) E'). lia.
  - destruct (Z.eq_dec b c); lia.
Qed.

(** No solution position is consumed twice. *)
Lemma spec_score_credited (c : Z) (g s : str) :
  length g = length s ->
  (credited c g (spec_score g s) ≤ occurrences c s)%nat.
Proof.
  intros Hlen. unfold spec_score.
  pose proof (spec_pass1_keeps g s Hlen) as Hk.
  pose proof (spec_pass1_count c g s) as Hc.
  destruct (spec_pass1 g s) as [ms pool]. simpl in *.
  pose proof (spec_pass2_credited c ms g Hk pool). lia.
Qed.

Lemma spec_pass2_length (ms : list (option Z)) : ∀ pool,
  length (spec_pass2 ms pool) = length ms.
Proof.
  induction ms as [|[a|] ms IH]; intros pool; simpl; [reflexivity| |].
  - destruct (consume a pool); simpl; rewrite IH; reflexivity.
  - rewrite IH. reflexivity.
Qed.

Lemma spec_pass2_not_empty (ms : list (option Z)) : ∀ pool,
  Forall (fun r => r ≠ empty) (spec_pass2 ms pool).
Proof.
  induction ms as [|[a|] ms IH]; intros pool; simpl.
  - constructor.
  - destruct (consume a pool); constructor; try discriminate; apply IH.
  - constructor; [discriminate|apply IH].
Qed.

Lemma spec_score_length (g s : str) :
  length g = length s -> length (spec_score g s) = length g.
Proof.
  intros Hlen. unfold spec_score.
  pose proof (spec_pass1_length g s Hlen) as H.
  destruct (spec_pass1 g s) as [ms pool]. simpl in H.
  rewrite spec_pass2_length. exact H.
Qed.

Lemma spec_score_not_empty (g s : str) :
  Forall (fun r => r ≠ empty) (spec_score g s).
Proof.
  unfold spec_score. destruct (spec_pass1 g s) as [ms pool].
  apply spec_pass2_not_empty.
Qed.

(** ** The canonical solutions of the targets 1 to 99 *)

Lemma range_In (lo hi t : Z) : lo ≤ t ≤ hi -> In t (range lo hi).
Proof.
  intros H. unfold range. apply in_map_iff.
  exists (Z.to_nat (t - lo)). split; [lia|].
  apply in_seq. lia.
Qed.

(** Every target from 1 to 99, by evaluation of the search. *)
Lemma canonical_checked : forallb canonical_ok (range 1 99) = true.
Proof. vm_compute. reflexivity. Qed.

Lemma canonical_ok_range (t : Z) : 1 ≤ t ≤ 99 -> canonical_ok t = true.
Proof.
  intros H. pose proof canonical_checked as Hall.
  rewrite forallb_forall in Hall. apply Hall. apply range_In. exact H.
Qed.

Lemma canonical_ok_spec (t : Z) :
  canonical_ok t = true ->
  length (getCanonicalSolution t) = 6%nat
  ∧ occurrences 61 (getCanonicalSolution t) = 1%nat
  ∧ (∃ left_, split 61 (getCanonicalSolution t) = [left_; String_ t]
              ∧ evaluate left_ = Some t)
  ∧ validateGuess (getCanonicalSolution t) t
    = {| valid := true; error := None |}.
Proof.
  unfold canonical_ok. cbv zeta.
  rewrite !andb_true_iff, !Nat.eqb_eq.
  intros [[[Hlen Hocc] Hsplit] Hvalid].
  split; [exact Hlen|]. split; [exact Hocc|]. split.
  - destruct (split 61 (getCanonicalSolution t)) as [|l [|r [|x parts]]];
      try discriminate.
    apply andb_true_iff in Hsplit as [Hr Hv].
    apply streq_spec in Hr. subst r. exists l. split; [reflexivity|].
    destruct (evaluate l) as [v|]; [|discriminate].
    apply Z.eqb_eq in Hv. congruence.
  - destruct (validateGuess (getCanonicalSolution t) t) as [[|] [e|]];
      try discriminate. reflexivity.
Qed.

Lemma canonical_length (t : Z) :
  1 ≤ t ≤ 99 -> length (getCanonicalSolution t) = EQUATION_LENGTH.
Proof.
  intros H. apply canonical_ok_spec. apply canonical_ok_range. exact H.
Qed.

(** C1.  For every target from 1 to 99 the canonical solution has six
    characters and exactly one [=]; its right side is the decimal string of
    the target; its left side evaluates to the target; and [validateGuess]
    accepts it. *)
Theorem canonicalSolution_valid (t : Z) :
  1 ≤ t ≤ 99 ->
  length (getCanonicalSolution t) = 6%nat
  ∧ occurrences 61 (getCanonicalSolution t) = 1%nat
  ∧ (∃ left_, split 61 (getCanonicalSolution t) = [left_; String_ t]
              ∧ evaluate left_ = Some t)
  ∧ validateGuess (getCanonicalSolution t) t
    = {| valid := true; error := None |}.
Proof.
  intros H. apply canonical_ok_spec. apply canonical_ok_range. exact H.
Qed.

Lemma canonicalSolution_valid_witness :
  length (getCanonicalSolution 42) = 6%nat
  ∧ occurrences 61 (getCanonicalSolution 42) = 1%nat
  ∧ (∃ left_, split 61 (getCanonicalSolution 42) = [left_; String_ 42]
              ∧ evaluate left_ = Some 42)
  ∧ validateGuess (getCanonicalSolution 42) 42
    = {| valid := true; error := None |}.
Proof. apply (canonicalSolution_valid 42). lia. Defined.

(** C2.  The search at target 19: no structured pattern of length 3
    matches, and [findSolution] returns the fallback, the target padded
    with a zero and without an operator.  The same happens for 60 of the
    targets from 1 to 99, listed here. *)
Theorem findSolution_reaches_fallback :
  leftLen 19 = 3%nat
  ∧ structured 19 (leftLen 19) = None
  ∧ findSolution 19 (leftLen 19) = fallback 19 (leftLen 19)
  ∧ findSolution 19 (leftLen 19) = js "019"
  ∧ getCanonicalSolution 19 = js "019=19"
  ∧ List.filter
      (fun t => match structured t (leftLen t) with
                | None => true
                | Some _ => false
                end)
      (range 1 99)
    = [19; 22; 23; 26; 29; 31; 33; 34; 37; 38; 39; 41; 43; 44; 46; 47; 50;
       51; 52; 53; 55; 57; 58; 59; 60; 61; 62; 65; 66; 67; 68; 69; 70; 71;
       73; 74; 75; 76; 77; 78; 79; 80; 82; 83; 84; 85; 86; 87; 88; 89; 90;
       91; 92; 93; 94; 95; 96; 97; 98; 99].
Proof.
  split; [vm_compute; reflexivity|].
  split; [vm_compute; reflexivity|].
  split; [vm_compute; reflexivity|].
  split; [vm_compute; reflexivity|].
  split; vm_compute; reflexivity.
Qed.

(** C7.  [getGuessResult] scores the guess against the canonical solution
    of the target in two passes: equal characters at equal positions are
    correct and consume that solution position; then, left to right, each
    other guess position is present if its character is still unconsumed
    somewhere in the solution (the leftmost such position is consumed), and
    absent if not.  For target 42 the canonical solution is ["6×7=42"], and
    ["7×6=42"] scores present, correct, present, correct, correct,
    correct. *)
Theorem getGuessResult_two_pass :
  (∀ guess target,
     length guess = 6%nat -> 1 ≤ target ≤ 99 ->
     getGuessResult guess target
     = spec_score guess (getCanonicalSolution target))
  ∧ getCanonicalSolution 42 = js "6×7=42"
  ∧ getGuessResult (js "7×6=42") 42
    = [present; correct; present; correct; correct; correct].
Proof.
  split; [|split; vm_compute; reflexivity].
  intros guess target Hg Ht. unfold getGuessResult.
  apply scoreAgainst_refines; [exact Hg|].
  apply canonical_length. exact Ht.
Qed.

Lemma getGuessResult_two_pass_witness :
  getGuessResult (js "7×6=42") 42
  = spec_score (js "7×6=42") (getCanonicalSolution 42).
Proof.
  apply (proj1 getGuessResult_two_pass (js "7×6=42") 42);
    [reflexivity|lia].
Defined.

(** C9.  For a guess of six characters and a target from 1 to 99,
    [getGuessResult] returns six cell states, none of them [empty], and for
    every character [c] at most as many guess positions holding [c] are
    marked correct or present as [c] occurs in the canonical solution. *)
Theorem getGuessResult_invariants (guess : str) (target : Z) :
  length guess = 6%nat -> 1 ≤ target ≤ 99 ->
  length (getGuessResult guess target) = 6%nat
  ∧ Forall (fun r => r ≠ empty) (getGuessResult guess target)
  ∧ ∀ c, (credited c guess (getGuessResult guess target)
          ≤ occurrences c (getCanonicalSolution target))%nat.
Proof.
  intros Hg Ht. pose proof (canonical_length target Ht) as Hs.
  unfold getGuessResult.
  rewrite (scoreAgainst_refines _ _ Hg Hs).
  assert (length guess = length (getCanonicalSolution target)) as Hlen
    by (rewrite Hg, Hs; reflexivity).
  split; [|split].
  - rewrite spec_score_length by exact Hlen. exact Hg.
  - apply spec_score_not_empty.
  - intros c. apply spec_score_credited. exact Hlen.
Qed.

Lemma getGuessResult_invariants_witness :
  length (getGuessResult (js "7×6=42") 42) = 6%nat
  ∧ Forall (fun r => r ≠ empty) (getGuessResult (js "7×6=42") 42)
  ∧ ∀ c, (credited c (js "7×6=42") (getGuessResult (js "7×6=42") 42)
          ≤ occurrences c (getCanonicalSolution 42))%nat.
Proof.
  apply (getGuessResult_invariants (js "7×6=42") 42); [reflexivity|lia].
Defined.

(** ** Leading zeros *)

Lemma spec_parse_digits (ds : str) : ∀ acc,
  forallb isDigit ds = true -> ds ≠ [] ∨ acc ≠ None ->
  spec_parse ds acc
  = Some (fold_left (fun v ch => v * 10 + (ch - 48)) ds (default 0 acc), []).
Proof.
  induction ds as [|ch ds IH]; intros acc Hd Hne.
  - destruct acc as [n|]; [reflexivity|]. destruct Hne; contradiction.
  - simpl in Hd. apply andb_true_iff in Hd as [Hc Hd].
    cbn [spec_parse fold_left]. rewrite Hc.
    rewrite IH; [reflexivity|exact Hd|right; discriminate].
Qed.

Lemma evaluate_digits (ds : str) :
  ds ≠ [] -> forallb isDigit ds = true -> evaluate ds = Some (Number_digits ds).
Proof.
  intros Hne Hd. rewrite evaluate_refines. unfold spec_evaluate.
  rewrite spec_parse_digits by auto. reflexivity.
Qed.

Lemma Number_digits_zeros (k : nat) (ds : str) :
  Number_digits (repeat 48 k ++ ds) = Number_digits ds.
Proof.
  unfold Number_digits. rewrite fold_left_app. f_equal.
  induction k as [|k IH]; [reflexivity|]. simpl. exact IH.
Qed.

Lemma forallb_repeat_zero (k : nat) : forallb isDigit (repeat 48 k) = true.
Proof. induction k as [|k IH]; [reflexivity|]. simpl. exact IH. Qed.



(** * Further properties of the engine *)

(** ** validateGuess: which guesses win *)

Lemma split_single (sep : Z) (s r : str) : split sep s = [r] -> s = r.
Proof.
  revert r. induction s as [|ch rest IH]; intros r H.
  - simpl in H. congruence.
  - simpl in H. destruct (decide (ch = sep)) as [E|E].
    + pose proof (split_length sep rest) as Hl.
      destruct (split sep rest); simpl in Hl; [lia|discriminate].
    + destruct (split sep rest) as [|part parts] eqn:Hs.
      * pose proof (split_length sep rest) as Hl. rewrite Hs in Hl.
        simpl in Hl. lia.
      * injection H as <- ->. f_equal. apply IH. reflexivity.
Qed.

Lemma split_two (sep : Z) (s l r : str) :
  split sep s = [l; r] -> s = l ++ sep :: r.
Proof.
  revert l. induction s as [|ch rest IH]; intros l H.
  - simpl in H. discriminate.
  - simpl in H. destruct (decide (ch = sep)) as [E|E].
    + injection H as <- H. subst ch. simpl. f_equal.
      apply split_single with (sep := sep). exact H.
    + destruct (split sep rest) as [|part parts] eqn:Hs; [discriminate|].
      injection H as <- ->. simpl. f_equal. apply IH. reflexivity.
Qed.

(** [String(n)] is made of digits and, in front, at most a minus sign. *)
Lemma String_chars (n c : Z) : In c (String_ n) -> c = 45 ∨ isDigit c = true.
Proof.
  unfold String_. destruct (Z.ltb_spec n 0) as [Hneg|Hpos]; intros Hin.
  - destruct Hin as [<-|Hin]; [auto|]. right.
    pose proof (String_nonneg_digits (- n)) as Hd.
    rewrite forallb_forall in Hd. apply Hd; [lia|exact Hin].
  - right. pose proof (String_nonneg_digits n Hpos) as Hd.
    rewrite forallb_forall in Hd. apply Hd. exact Hin.
Qed.

Lemma String_no_equals (n : Z) : occurrences 61 (String_ n) = 0%nat.
Proof.
  unfold occurrences. apply count_occ_not_In. intros Hin.
  apply String_chars in Hin as [H|H]; [discriminate|].
  apply isDigit_range in H. lia.
Qed.

(** An expression that evaluates holds no [=]. *)
Lemma evaluate_no_equals (l : str) (v : Z) :
  evaluate l = Some v -> occurrences 61 l = 0%nat.
Proof.
  intros He. unfold occurrences. apply count_occ_not_In. intros Hin.
  assert (evaluate l = None) as Hn; [|congruence].
  apply evaluate_None_iff. right. left.
  exists 61. split; [apply list_elem_of_In; exact Hin|].
  split; [reflexivity|]. intros [o Ho]. discriminate.
Qed.

Lemma evaluate_nil : evaluate [] = None.
Proof. reflexivity. Qed.

Lemma validateGuess_valid_spec (guess : str) (target : Z) :
  valid (validateGuess guess target) = true
  ↔ length guess = 6%nat
    ∧ ∃ l, guess = l ++ EQUALS ++ String_ target ∧ evaluate l = Some target.
Proof.
  split.
  - intros Hv. destruct (decide (length guess = 6%nat)) as [Hlen|Hlen].
    2:{ rewrite validateGuess_length in Hv by exact Hlen. discriminate. }
    destruct (decide (occurrences 61 guess = 1%nat)) as [Hocc|Hocc].
    2:{ rewrite validateGuess_one_equals in Hv by assumption. discriminate. }
    pose proof (split_length 61 guess) as Hsl. rewrite Hocc in Hsl.
    destruct (split 61 guess) as [|l [|r [|x parts]]] eqn:Hs;
      try discriminate.
    apply split_two in Hs. change (61 :: r) with (EQUALS ++ r) in Hs.
    subst guess. rewrite validateGuess_sides in Hv by assumption.
    split; [exact Hlen|]. exists l.
    destruct (decide (l = [] ∨ r = [])); [discriminate|].
    destruct (decide (r = String_ target)) as [->|]; [|discriminate].
    split; [reflexivity|].
    destruct (evaluate l) as [leftVal|]; [|discriminate].
    destruct (decide (leftVal = target)) as [->|]; [reflexivity|discriminate].
  - intros [Hlen (l & -> & He)].
    assert (occurrences 61 (l ++ EQUALS ++ String_ target) = 1%nat) as Hocc.
    { unfold occurrences. change (EQUALS ++ String_ target)
        with (61 :: String_ target).
      rewrite count_occ_app, count_occ_cons_eq by reflexivity.
      pose proof (evaluate_no_equals l target He) as H1.
      pose proof (String_no_equals target) as H2.
      unfold occurrences in H1, H2. lia. }
    rewrite validateGuess_sides by assumption.
    rewrite decide_False.
    2:{ intros [->|H]; [rewrite evaluate_nil in He; discriminate|].
        exact (String_nonempty target H). }
    rewrite decide_True by reflexivity. rewrite He.
    rewrite decide_True by reflexivity. reflexivity.
Qed.

(** X1.  A guess is accepted exactly when it has six characters and reads
    [l = String(target)] for an expression [l] that evaluates to the
    target. *)
Theorem validateGuess_valid_iff (guess : str) (target : Z) :
  valid (validateGuess guess target) = true
  ↔ length guess = 6%nat
    ∧ ∃ l, guess = l ++ EQUALS ++ String_ target ∧ evaluate l = Some target.
Proof.
  split.
  - intros Hv. apply validateGuess_valid_spec. exact Hv.
  - intros [Hlen (l & Hg & He)]. apply validateGuess_valid_spec.
    split; [exact Hlen|]. exists l. split; assumption.
Qed.

(** ** The targets that can be won *)

Lemma rdigits_length_2 (fuel : nat) (n : Z) :
  10 ≤ n -> (2 ≤ length (rdigits (S (S fuel)) n))%nat.
Proof.
  intros Hn. cbn [rdigits].
  destruct (Z.ltb_spec n 10); [lia|]. simpl. lia.
Qed.

Lemma rdigits_length_3 (fuel : nat) (n : Z) :
  100 ≤ n -> (3 ≤ length (rdigits (S (S (S fuel))) n))%nat.
Proof.
  intros Hn. cbn [rdigits].
  destruct (Z.ltb_spec n 10); [lia|].
  destruct (Z.ltb_spec (n / 10) 10) as [Hlt|Hge].
  - pose proof (Z.div_le_lower_bound n 10 10). lia.
  - simpl. lia.
Qed.

Lemma log2_fuel (n : Z) (k : nat) :
  2 ^ Z.of_nat k ≤ n -> ∃ fuel, Z.to_nat (Z.log2 n) = (k + fuel)%nat.
Proof.
  intros Hn. exists (Z.to_nat (Z.log2 n) - k)%nat.
  assert (Z.of_nat k ≤ Z.log2 n).
  { rewrite <- (Z.log2_pow2 (Z.of_nat k)) by lia.
    apply Z.log2_le_mono. exact Hn. }
  lia.
Qed.

(** Three characters at least for a target outside -9..99. *)
Lemma String_length_3 (t : Z) :
  t ≤ -10 ∨ 100 ≤ t -> (3 ≤ length (String_ t))%nat.
Proof.
  intros H. unfold String_, String_nonneg.
  destruct (Z.ltb_spec t 0) as [Hneg|Hpos].
  - destruct (log2_fuel (- t) 1) as [fuel ->]; [simpl; lia|].
    cbn [length]. rewrite length_rev.
    pose proof (rdigits_length_2 fuel (- t)). simpl Nat.add. lia.
  - destruct (log2_fuel t 2) as [fuel ->]; [simpl; lia|].
    rewrite length_rev.
    pose proof (rdigits_length_3 fuel t). simpl Nat.add. lia.
Qed.

(** One or two characters can only spell a number below 100. *)
Lemma evaluate_short (l : str) (v : Z) :
  (length l ≤ 2)%nat -> evaluate l = Some v -> 0 ≤ v ≤ 99.
Proof.
  intros Hlen He.
  destruct l as [|a [|b [|c l]]]; [discriminate| | |simpl in Hlen; lia].
  - destruct (isDigit a) eqn:Ha.
    + rewrite evaluate_digits in He; [|discriminate|simpl; rewrite Ha; reflexivity].
      injection He as <-. apply isDigit_range in Ha.
      unfold Number_digits. simpl. lia.
    + unfold evaluate in He. cbn [scan] in He. rewrite Ha in He.
      destruct (includes OPERATORS a); discriminate.
  - destruct (isDigit a) eqn:Ha.
    + destruct (isDigit b) eqn:Hb.
      * rewrite evaluate_digits in He;
          [|discriminate|simpl; rewrite Ha, Hb; reflexivity].
        injection He as <-. apply isDigit_range in Ha, Hb.
        unfold Number_digits. simpl. lia.
      * unfold evaluate in He. cbn [scan app] in He. rewrite Ha, Hb in He.
        destruct (includes OPERATORS b); discriminate.
    + unfold evaluate in He. cbn [scan] in He. rewrite Ha in He.
      destruct (includes OPERATORS a); discriminate.
Qed.

Lemma valid_target_range (guess : str) (target : Z) :
  valid (validateGuess guess target) = true -> -9 ≤ target ≤ 99.
Proof.
  intros Hv. apply validateGuess_valid_spec in Hv as [Hlen (l & -> & He)].
  destruct (decide (-9 ≤ target ≤ 99)) as [H|H]; [exact H|].
  pose proof (String_length_3 target) as H3.
  rewrite !length_app in Hlen. simpl in Hlen.
  assert (3 ≤ length (String_ target))%nat as H3' by (apply H3; lia).
  assert (0 ≤ target ≤ 99) by (apply (evaluate_short l); [lia|exact He]).
  lia.
Qed.

(** The canonical solutions of the targets from -9 to 0. *)
Lemma canonical_checked_low : forallb canonical_ok (range (-9) 0) = true.
Proof. vm_compute. reflexivity. Qed.

Lemma canonical_valid_range (t : Z) :
  -9 ≤ t ≤ 99 -> valid (validateGuess (getCanonicalSolution t) t) = true.
Proof.
  intros H.
  assert (canonical_ok t = true) as Hok.
  { destruct (decide (1 ≤ t)) as [H1|H1].
    - apply canonical_ok_range. lia.
    - pose proof canonical_checked_low as Hall.
      rewrite forallb_forall in Hall. apply Hall. apply range_In. lia. }
  apply canonical_ok_spec in Hok as (_ & _ & _ & ->). reflexivity.
Qed.

(** X2.  Some guess is accepted exactly for the targets from -9 to 99, and
    for exactly those targets the canonical solution is itself accepted:
    outside that range the right side leaves at most two characters for the
    left side, which cannot reach the target. *)
Theorem winnable_targets (target : Z) :
  ((∃ guess, valid (validateGuess guess target) = true) ↔ -9 ≤ target ≤ 99)
  ∧ (valid (validateGuess (getCanonicalSolution target) target) = true
     ↔ -9 ≤ target ≤ 99).
Proof.
  split; split.
  - intros [guess Hv]. eapply valid_target_range. exact Hv.
  - intros H. exists (getCanonicalSolution target).
    apply canonical_valid_range. exact H.
  - apply valid_target_range.
  - apply canonical_valid_range.
Qed.

(** ** findSolution: what it returns evaluates to the target *)

Lemma firstOf_Some {A} (body : A -> option str) (l : list A) (r : str) :
  firstOf body l = Some r -> ∃ x, In x l ∧ body x = Some r.
Proof.
  induction l as [|x l IH]; [discriminate|].
  simpl. destruct (body x) as [r'|] eqn:E.
  - intros [= <-]. exists x. auto.
  - intros H. destruct (IH H) as (y & Hy & Hb). exists y. auto.
Qed.

Lemma candidate_sound (target : Z) (len : nat) (expr r : str) :
  candidate target len expr = Some r ->
  length r = len ∧ evaluate r = Some target.
Proof.
  unfold candidate.
  destruct (Nat.eqb_spec (length expr) len) as [Hl|Hl]; [|discriminate].
  destruct (evaluate expr) as [v|] eqn:He; [|discriminate].
  destruct (Z.eqb_spec v target) as [->|]; [|discriminate].
  simpl. intros [= <-]. auto.
Qed.

Ltac crack_search :=
  repeat match goal with
    | H : None = Some _ |- _ => discriminate H
    | H : firstOf _ _ = Some _ |- _ =>
        apply firstOf_Some in H as (? & _ & H); cbv beta zeta in H
    | H : match ?x with Some _ => _ | None => _ end = Some _ |- _ =>
        let E := fresh "E" in
        destruct x eqn:E; [injection H as <-|]
    | H : candidate _ _ _ = Some _ |- _ =>
        apply candidate_sound in H; exact H
    end.

(** A structured pattern that is returned has the length asked for and
    evaluates to the target. *)
Lemma structured_sound (target : Z) (len : nat) (expr : str) :
  structured target len = Some expr ->
  length expr = len ∧ evaluate expr = Some target.
Proof.
  unfold structured. intros H.
  destruct (decide (len = 4%nat)); destruct (decide (len = 3%nat));
    destruct (decide (len = 5%nat)); try discriminate; try (exfalso; lia);
    unfold search4, search3, search5 in H; crack_search.
Qed.

Lemma evaluate_padded (k : nat) (t : Z) :
  0 ≤ t -> evaluate (repeat 48 k ++ String_ t) = Some t.
Proof.
  intros Ht. unfold String_.
  destruct (Z.ltb_spec t 0) as [Hneg|_]; [lia|].
  rewrite evaluate_digits.
  - rewrite Number_digits_zeros, Number_digits_String_nonneg by lia.
    reflexivity.
  - pose proof (String_nonneg_nonempty t) as Hne.
    destruct k; simpl; [exact Hne|discriminate].
  - rewrite forallb_app, forallb_repeat_zero, String_nonneg_digits by lia.
    reflexivity.
Qed.

(** X3.  For every target from 0 up to 10^15 and every length up to 15
    (where the numbers of the source are exact and [String] prints plain
    digits), [findSolution] returns an expression that evaluates to the
    target and is at least as long as asked; a structured pattern, when one
    is found, has exactly the length asked for. *)
Theorem findSolution_sound (target : Z) (len : nat) :
  0 ≤ target < 10 ^ 15 -> (len ≤ 15)%nat ->
  evaluate (findSolution target len) = Some target
  ∧ (len ≤ length (findSolution target len))%nat
  ∧ (∀ expr, structured target len = Some expr ->
             findSolution target len = expr ∧ length expr = len).
Proof.
  intros [Ht _] _. unfold findSolution.
  destruct (structured target len) as [expr|] eqn:Hs.
  - apply structured_sound in Hs as [Hl He].
    split; [exact He|]. split; [lia|].
    intros expr' [= <-]. auto.
  - unfold fallback, padStart0.
    split; [apply evaluate_padded; exact Ht|].
    split; [|discriminate].
    rewrite length_app, repeat_length. lia.
Qed.

Lemma findSolution_sound_witness :
  evaluate (findSolution 19 3) = Some 19
  ∧ (3 ≤ length (findSolution 19 3))%nat
  ∧ (∀ expr, structured 19 3 = Some expr ->
             findSolution 19 3 = expr ∧ length expr = 3%nat).
Proof. apply (findSolution_sound 19 3); lia. Defined.

(** ** evaluate: sums *)

Lemma operator_not_digit (ch : Z) (o : operator) :
  operator_of ch = Some o -> isDigit ch = false.
Proof.
  intros Ho. destruct (isDigit ch) eqn:Hd; [|reflexivity].
  exfalso. apply (digit_not_operator ch Hd). exists o. exact Ho.
Qed.

Lemma spec_parse_app (a b : str) (ch : Z) (o : operator) :
  operator_of ch = Some o ->
  ∀ acc,
    spec_parse (a ++ ch :: b) acc
    = match spec_parse a acc with
      | Some (n, ra) =>
          match spec_parse b None with
          | Some (m, rb) => Some (n, ra ++ (o, m) :: rb)
          | None => None
          end
      | None => None
      end.
Proof.
  intros Ho. induction a as [|c a IH]; intros acc.
  - cbn [app spec_parse]. rewrite (operator_not_digit ch o Ho), Ho.
    destruct acc; reflexivity.
  - cbn [app spec_parse]. destruct (isDigit c); [apply IH|].
    destruct (operator_of c) as [o'|]; [|reflexivity].
    destruct acc as [n|]; [|reflexivity].
    rewrite IH. destruct (spec_parse a None) as [[m tl]|]; [|reflexivity].
    destruct (spec_parse b None) as [[m' rb]|]; reflexivity.
Qed.

Lemma spec_resolveMulDiv_app (ra rb : list (operator * Z)) (m : Z) :
  ∀ cur,
    spec_resolveMulDiv cur (ra ++ (Additive Add, m) :: rb)
    = match spec_resolveMulDiv cur ra with
      | Some (v, fa) =>
          match spec_resolveMulDiv m rb with
          | Some (w, fb) => Some (v, fa ++ (Add, w) :: fb)
          | None => None
          end
      | None => None
      end.
Proof.
  induction ra as [|[o n] ra IH]; intros cur.
  - cbn [app spec_resolveMulDiv].
    destruct (spec_resolveMulDiv m rb) as [[w fb]|]; reflexivity.
  - destruct o as [ao|[|]]; cbn [app spec_resolveMulDiv].
    + rewrite IH. destruct (spec_resolveMulDiv n ra) as [[v fa]|];
        [|reflexivity].
      destruct (spec_resolveMulDiv m rb) as [[w fb]|]; reflexivity.
    + apply IH.
    + destruct (decide (n = 0)); [reflexivity|].
      destruct (decide ((n | cur))); [apply IH|reflexivity].
Qed.

Lemma spec_foldAddSub_shift (fb : list (addop * Z)) : ∀ x w,
  spec_foldAddSub (x + w) fb = x + spec_foldAddSub w fb.
Proof.
  unfold spec_foldAddSub.
  induction fb as [|[o v] fb IH]; intros x w; [reflexivity|].
  cbn [fold_left]. destruct o.
  - rewrite <- IH. f_equal. lia.
  - rewrite <- IH. f_equal. lia.
Qed.

(** X4.  Joining two expressions with [+], to at most 15 characters in
    all (where the numbers of the source are exact), adds their values, and
    fails exactly when one of them fails: [+] binds weakest and to the
    left. *)
Theorem evaluate_plus (a b : str) :
  SafeExpr (a ++ PLUS ++ b) ->
  evaluate (a ++ PLUS ++ b)
  = match evaluate a, evaluate b with
    | Some x, Some y => Some (x + y)
    | _, _ => None
    end.
Proof.
  intros _. rewrite !evaluate_refines. unfold spec_evaluate.
  change (PLUS ++ b) with (43 :: b).
  rewrite (spec_parse_app a b 43 (Additive Add) eq_refl).
  destruct (spec_parse a None) as [[n ra]|]; [|reflexivity].
  destruct (spec_parse b None) as [[m rb]|].
  - rewrite spec_resolveMulDiv_app.
    destruct (spec_resolveMulDiv n ra) as [[v fa]|]; [|reflexivity].
    destruct (spec_resolveMulDiv m rb) as [[w fb]|]; [|reflexivity].
    f_equal. unfold spec_foldAddSub at 1. rewrite fold_left_app.
    cbn [fold_left]. apply spec_foldAddSub_shift.
  - destruct (spec_resolveMulDiv n ra) as [[v fa]|]; reflexivity.
Qed.

Lemma evaluate_plus_witness :
  evaluate (js "2-3" ++ PLUS ++ js "4×5")
  = match evaluate (js "2-3"), evaluate (js "4×5") with
    | Some x, Some y => Some (x + y)
    | _, _ => None
    end.
Proof.
  apply (evaluate_plus (js "2-3") (js "4×5")).
  unfold SafeExpr. simpl. lia.
Defined.

(** ** getGuessResult on arbitrary strings *)

Section Scoring.
Variables guessChars solutionChars : str.

Lemma greenStep_fst (m : marks) (i : nat) :
  fst (greenStep guessChars solutionChars m i)
  = if bool_decide (guessChars !! i = solutionChars !! i)
    then <[i:=correct]> (fst m) else fst m.
Proof.
  destruct m as [result used]. unfold greenStep.
  destruct (bool_decide (guessChars !! i = solutionChars !! i)); reflexivity.
Qed.

(** The first loop marks exactly the equal positions, whatever the lengths
    of the two strings. *)
Lemma greens_fold (l : list nat) : ∀ m,
  length (fst (foldl (greenStep guessChars solutionChars) m l))
  = length (fst m)
  ∧ (Forall (fun r => r ≠ empty) (fst m) ->
     Forall (fun r => r ≠ empty)
            (fst (foldl (greenStep guessChars solutionChars) m l)))
  ∧ ∀ i,
      fst (foldl (greenStep guessChars solutionChars) m l) !! i = Some correct
      ↔ fst m !! i = Some correct
        ∨ (i ∈ l ∧ (i < length (fst m))%nat
           ∧ guessChars !! i = solutionChars !! i).
Proof.
  induction l as [|j l IH]; intros m.
  - cbn [foldl]. split; [reflexivity|]. split; [auto|].
    intros i. rewrite elem_of_nil. tauto.
  - cbn [foldl].
    destruct (IH (greenStep guessChars solutionChars m j)) as (Hl & Hf & Hc).
    rewrite greenStep_fst in Hl, Hf, Hc.
    destruct (bool_decide (guessChars !! j = solutionChars !! j)) eqn:Hj.
    + apply bool_decide_eq_true in Hj. rewrite length_insert in Hl, Hc.
      split; [exact Hl|]. split.
      * intros HF. apply Hf. apply Forall_insert; [exact HF|discriminate].
      * intros i. rewrite Hc, list_lookup_insert_Some, elem_of_cons.
        destruct (decide (j = i)) as [->|Hne].
        -- split; [|intros [H|H]].
           ++ intros [[H|H]|H]; [right|tauto|right]; tauto.
           ++ left. left. apply lookup_lt_Some in H. auto.
           ++ left. left. tauto.
        -- split.
           ++ intros [[H|H]|H]; [tauto|tauto|right; tauto].
           ++ intros [H|[[H|H] H']]; [left; right; tauto|congruence|].
              right. tauto.
    + apply bool_decide_eq_false in Hj.
      split; [exact Hl|]. split; [exact Hf|].
      intros i. rewrite Hc, elem_of_cons. split.
      * intros [H|H]; [tauto|right; tauto].
      * intros [H|[[->|H] H']]; [tauto|tauto|right; tauto].
Qed.

Lemma yellowScan_fst (range_j : list nat) (i : nat) : ∀ m,
  fst (yellowScan range_j guessChars solutionChars i m) = fst m
  ∨ fst (yellowScan range_j guessChars solutionChars i m)
    = <[i:=present]> (fst m).
Proof.
  induction range_j as [|j range_j IH]; intros [result used]; [left; reflexivity|].
  cbn [yellowScan].
  destruct (negb (default false (used !! j))
            && bool_decide (guessChars !! i = solutionChars !! j)).
  - right. reflexivity.
  - apply IH.
Qed.

Lemma yellowStep_fst (m : marks) (i : nat) :
  fst (yellowStep guessChars solutionChars m i) = fst m
  ∨ (fst m !! i ≠ Some correct
     ∧ fst (yellowStep guessChars solutionChars m i)
       = <[i:=present]> (fst m)).
Proof.
  unfold yellowStep.
  destruct (bool_decide (fst m !! i = Some correct)) eqn:Hc;
    [left; reflexivity|].
  apply bool_decide_eq_false in Hc.
  destruct (yellowScan_fst (seq 0 EQUATION_LENGTH) i m) as [H|H]; auto.
Qed.

(** The second loop keeps the length, never writes [empty], and neither
    makes nor unmakes a correct mark. *)
Lemma yellows_fold (l : list nat) : ∀ m,
  length (fst (foldl (yellowStep guessChars solutionChars) m l))
  = length (fst m)
  ∧ (Forall (fun r => r ≠ empty) (fst m) ->
     Forall (fun r => r ≠ empty)
            (fst (foldl (yellowStep guessChars solutionChars) m l)))
  ∧ ∀ k,
      fst (foldl (yellowStep guessChars solutionChars) m l) !! k = Some correct
      ↔ fst m !! k = Some correct.
Proof.
  induction l as [|i l IH]; intros m.
  - cbn [foldl]. split; [reflexivity|]. split; [auto|]. tauto.
  - cbn [foldl].
    destruct (IH (yellowStep guessChars solutionChars m i)) as (Hl & Hf & Hc).
    destruct (yellowStep_fst m i) as [E|[Hn E]]; rewrite E in Hl, Hf, Hc.
    + auto.
    + rewrite length_insert in Hl. split; [exact Hl|]. split.
      * intros HF. apply Hf. apply Forall_insert; [exact HF|discriminate].
      * intros k. rewrite Hc, list_lookup_insert_Some. split.
        -- intros [(_ & H & _)|[_ H]]; [discriminate|exact H].
        -- intros H. right. split; [congruence|exact H].
Qed.

Lemma scoreAgainst_shape :
  length (scoreAgainst solutionChars guessChars) = 6%nat
  ∧ Forall (fun r => r ≠ empty) (scoreAgainst solutionChars guessChars)
  ∧ ∀ i, (i < 6)%nat ->
         (scoreAgainst solutionChars guessChars !! i = Some correct
          ↔ guessChars !! i = solutionChars !! i).
Proof.
  unfold scoreAgainst, yellows, greens.
  set (m0 := (replicate EQUATION_LENGTH absent,
              replicate EQUATION_LENGTH false)).
  destruct (greens_fold (seq 0 EQUATION_LENGTH) m0) as (Hl1 & Hf1 & Hc1).
  destruct (yellows_fold (seq 0 EQUATION_LENGTH)
              (foldl (greenStep guessChars solutionChars) m0
                     (seq 0 EQUATION_LENGTH))) as (Hl2 & Hf2 & Hc2).
  split; [rewrite Hl2, Hl1; reflexivity|]. split.
  - apply Hf2, Hf1. repeat constructor; discriminate.
  - intros i Hi. rewrite Hc2, Hc1. split.
    + intros [H|H]; [|tauto].
      apply list_elem_of_lookup_2 in H.
      apply elem_of_replicate in H as [H _]. discriminate.
    + intros H. right. split; [|split].
      * apply elem_of_seq. unfold EQUATION_LENGTH. lia.
      * exact Hi.
      * exact H.
Qed.

End Scoring.

(** X5.  For every guess and every target, of any length and range,
    [getGuessResult] returns six cell states, none of them [empty], and
    marks position [i] correct exactly when the guess and the canonical
    solution agree there (two missing characters agree). *)
Theorem getGuessResult_shape (guess : str) (target : Z) :
  length (getGuessResult guess target) = 6%nat
  ∧ Forall (fun r => r ≠ empty) (getGuessResult guess target)
  ∧ ∀ i, (i < 6)%nat ->
         (getGuessResult guess target !! i = Some correct
          ↔ guess !! i = getCanonicalSolution target !! i).
Proof.
  unfold getGuessResult.
  destruct (scoreAgainst_shape guess (getCanonicalSolution target))
    as (Hlen & Hne & Hc).
  split; [exact Hlen|]. split; [exact Hne|].
  intros i Hi. apply Hc. exact Hi.
Qed.

Lemma canonical_length_low (t : Z) :
  -9 ≤ t ≤ 99 -> length (getCanonicalSolution t) = 6%nat.
Proof.
  intros H.
  assert (canonical_ok t = true) as Hok.
  { destruct (decide (1 ≤ t)) as [H1|H1].
    - apply canonical_ok_range. lia.
    - pose proof canonical_checked_low as Hall.
      rewrite forallb_forall in Hall. apply Hall. apply range_In. lia. }
  apply canonical_ok_spec in Hok as (Hl & _). exact Hl.
Qed.

(** X6.  A row is all green exactly when the guess is, character for
    character, the canonical solution: a different winning equation always
    shows a square that is not green. *)
Theorem all_correct_iff_canonical (guess : str) (target : Z) :
  length guess = 6%nat -> -9 ≤ target ≤ 99 ->
  (getGuessResult guess target = replicate 6 correct
   ↔ guess = getCanonicalSolution target).
Proof.
  intros Hg Ht. pose proof (canonical_length_low target Ht) as Hs.
  destruct (scoreAgainst_shape guess (getCanonicalSolution target))
    as (Hl & _ & Hc).
  unfold getGuessResult.
  split.
  - intros Hall. apply list_eq. intros i.
    destruct (decide (i < 6)%nat) as [Hi|Hi].
    + apply Hc; [exact Hi|]. rewrite Hall.
      apply lookup_replicate_2. exact Hi.
    + rewrite !lookup_ge_None_2 by lia. reflexivity.
  - intros Heq. apply list_eq. intros i.
    destruct (decide (i < 6)%nat) as [Hi|Hi].
    + rewrite lookup_replicate_2 by exact Hi.
      apply Hc; [exact Hi|]. rewrite <- Heq. reflexivity.
    + rewrite !lookup_ge_None_2; [reflexivity| |lia].
      rewrite length_replicate. lia.
Qed.

Lemma all_correct_iff_canonical_witness :
  getGuessResult (js "6×7=42") 42 = replicate 6 correct
  ↔ js "6×7=42" = getCanonicalSolution 42.
Proof.
  apply (all_correct_iff_canonical (js "6×7=42") 42); [reflexivity|lia].
Defined.

(** ** keyStates: the colour of a key *)

Lemma rank_le_3 (o : option CellState) : (rank o ≤ 3)%nat.
Proof. destruct o as [[]|]; simpl; lia. Qed.

Lemma keyStep_NoEmpty (result : list CellState) (guess : str)
  (states : gmap Z CellState) (i : nat) :
  NoEmpty states -> NoEmpty (keyStep result guess states i).
Proof.
  intros HS. unfold keyStep. destruct (guess !! i) as [c|]; [|exact HS].
  repeat case_decide; try exact HS; intros ch;
    (destruct (decide (c = ch)) as [->|Hne];
     [rewrite lookup_insert_eq; discriminate
     |rewrite lookup_insert_ne by exact Hne; apply HS]).
Qed.

(** One step of the inner loop raises the colour of the key [guess[i]] to
    the score of position [i], and never lowers a colour. *)
Lemma keyStep_rank (result : list CellState) (guess : str)
  (states : gmap Z CellState) (i : nat) (ch : Z) (r : nat) :
  NoEmpty states -> (1 ≤ r)%nat ->
  (r ≤ rank (keyStep result guess states i !! ch))%nat
  ↔ (r ≤ rank (states !! ch))%nat
    ∨ (guess !! i = Some ch ∧ (r ≤ rank (result !! i))%nat).
Proof.
  intros HS Hr. unfold keyStep.
  destruct (guess !! i) as [c|]; [|split; [auto|intros [Ha|[Ha _]]; [auto|discriminate]]].
  destruct (decide (c = ch)) as [->|Hne].
  - specialize (HS ch). pose proof (rank_le_3 (states !! ch)) as H3.
    destruct (result !! i) as [[| | |]|]; repeat case_decide;
      rewrite ?lookup_insert_eq; simpl rank;
      try (destruct (states !! ch) as [[| | |]|]; simpl rank in *;
           intuition (try congruence; try lia)).
  - assert (keyStates_other :
      ∀ v, (<[c:=v]> states) !! ch = states !! ch)
      by (intros v; apply lookup_insert_ne; exact Hne).
    repeat case_decide; rewrite ?keyStates_other;
      (split; [auto|intros [Ha|[Ha _]]; [auto|congruence]]).
Qed.

Lemma keyStates_inner (result : list CellState) (guess : str)
  (l : list nat) : ∀ states,
  NoEmpty states ->
  NoEmpty (foldl (keyStep result guess) states l)
  ∧ ∀ ch r, (1 ≤ r)%nat ->
      ((r ≤ rank (foldl (keyStep result guess) states l !! ch))%nat
       ↔ (r ≤ rank (states !! ch))%nat
         ∨ ∃ i, i ∈ l ∧ guess !! i = Some ch
                ∧ (r ≤ rank (result !! i))%nat).
Proof.
  induction l as [|j l IH]; intros states HS.
  - cbn [foldl]. split; [exact HS|]. intros ch r Hr. split; [auto|].
    intros [H|(i & Hi & _)]; [exact H|]. apply elem_of_nil in Hi. contradiction.
  - cbn [foldl].
    destruct (IH _ (keyStep_NoEmpty result guess states j HS)) as [HN Hk].
    split; [exact HN|]. intros ch r Hr.
    rewrite (Hk ch r Hr), (keyStep_rank result guess states j ch r HS Hr).
    split.
    + intros [[H|H]|(i & Hi & H)]; [auto| |].
      * right. exists j. split; [apply elem_of_cons; auto|exact H].
      * right. exists i. split; [apply elem_of_cons; auto|exact H].
    + intros [H|(i & Hi & H)]; [auto|].
      apply elem_of_cons in Hi as [->|Hi]; [auto|].
      right. exists i. auto.
Qed.

Lemma keyStates_outer (target : Z) (guesses : list str) : ∀ states,
  NoEmpty states ->
  NoEmpty
    (foldl (fun states guess =>
              foldl (keyStep (getGuessResult guess target) guess) states
                    (seq 0 (length guess)))
           states guesses)
  ∧ ∀ ch r, (1 ≤ r)%nat ->
      ((r ≤ rank
             (foldl (fun states guess =>
                       foldl (keyStep (getGuessResult guess target) guess)
                             states (seq 0 (length guess)))
                    states guesses !! ch))%nat
       ↔ (r ≤ rank (states !! ch))%nat
         ∨ ∃ guess i, guess ∈ guesses ∧ guess !! i = Some ch
                      ∧ (r ≤ rank (getGuessResult guess target !! i))%nat).
Proof.
  induction guesses as [|g guesses IH]; intros states HS.
  - cbn [foldl]. split; [exact HS|]. intros ch r Hr. split; [auto|].
    intros [H|(guess & i & Hg & _)]; [exact H|].
    apply elem_of_nil in Hg. contradiction.
  - cbn [foldl].
    destruct (keyStates_inner (getGuessResult g target) g
                (seq 0 (length g)) states HS) as [HN1 Hk1].
    destruct (IH _ HN1) as [HN Hk].
    split; [exact HN|]. intros ch r Hr.
    rewrite (Hk ch r Hr), (Hk1 ch r Hr). split.
    + intros [[H|(i & _ & H)]|(guess & i & Hg & H)]; [auto| |].
      * right. exists g, i. split; [apply elem_of_cons; auto|exact H].
      * right. exists guess, i. split; [apply elem_of_cons; auto|exact H].
    + intros [H|(guess & i & Hg & Hi & H)]; [auto|].
      apply elem_of_cons in Hg as [->|Hg].
      * left. right. exists i. split; [|auto].
        apply elem_of_seq. apply lookup_lt_Some in Hi. lia.
      * right. exists guess, i. auto.
Qed.

Lemma rank_Some (s : CellState) (r : nat) :
  (1 ≤ r ≤ 3)%nat ->
  (r ≤ rank (Some s))%nat
  ↔ s = correct ∨ (s = present ∧ (r ≤ 2)%nat) ∨ (s = absent ∧ (r ≤ 1)%nat).
Proof.
  intros Hr. destruct s; simpl; split; intros H;
    try (exfalso; lia); intuition (try discriminate; try lia).
Qed.

Lemma keyStates_rank (guesses : list str) (target ch : Z) (r : nat) :
  (1 ≤ r ≤ 3)%nat ->
  (r ≤ rank (keyStates guesses target !! ch))%nat
  ↔ Marked guesses target ch correct
    ∨ (Marked guesses target ch present ∧ (r ≤ 2)%nat)
    ∨ (Marked guesses target ch absent ∧ (r ≤ 1)%nat).
Proof.
  intros Hr. unfold keyStates.
  assert (NoEmpty (∅ : gmap Z CellState)) as H0
    by (intros c; rewrite lookup_empty; discriminate).
  destruct (keyStates_outer target guesses ∅ H0) as [_ Hk].
  rewrite (Hk ch r (proj1 Hr)), lookup_empty.
  change (rank None) with 0%nat. unfold Marked. split.
  - intros [H|(guess & i & Hg & Hi & H)]; [lia|].
    destruct (getGuessResult guess target !! i) as [s|] eqn:Hs;
      [|simpl in H; lia].
    apply (rank_Some s r Hr) in H as [->|[[-> H]|[-> H]]];
      [left|right; left; split; [|exact H]|right; right; split; [|exact H]];
      exists guess, i; auto.
  - intros [H|[[H Hr']|[H Hr']]]; destruct H as (guess & i & Hg & Hi & Hs);
      right; exists guess, i; rewrite Hs; (split; [exact Hg|]);
      (split; [exact Hi|]); simpl; lia.
Qed.

Lemma keyStates_NoEmpty (guesses : list str) (target : Z) :
  NoEmpty (keyStates guesses target).
Proof.
  unfold keyStates. apply keyStates_outer.
  intros c. rewrite lookup_empty. discriminate.
Qed.

(** X7.  The colour of a key is the best score its character has got in
    any guessed row: correct if it was correct somewhere, else present if
    it was present somewhere, else absent if it was scored at all; a key
    whose character was never scored has no colour, and no key is ever
    [empty]. *)
Theorem keyStates_best_score (guesses : list str) (target ch : Z) :
  (keyStates guesses target !! ch = Some correct
   ↔ Marked guesses target ch correct)
  ∧ (keyStates guesses target !! ch = Some present
     ↔ Marked guesses target ch present
       ∧ ¬ Marked guesses target ch correct)
  ∧ (keyStates guesses target !! ch = Some absent
     ↔ Marked guesses target ch absent
       ∧ ¬ Marked guesses target ch present
       ∧ ¬ Marked guesses target ch correct)
  ∧ keyStates guesses target !! ch ≠ Some empty
  ∧ (keyStates guesses target !! ch = None
     ↔ ¬ Marked guesses target ch correct
       ∧ ¬ Marked guesses target ch present
       ∧ ¬ Marked guesses target ch absent).
Proof.
  pose proof (keyStates_NoEmpty guesses target ch) as HN.
  assert ((3 ≤ rank (keyStates guesses target !! ch))%nat
          ↔ Marked guesses target ch correct) as L3.
  { rewrite keyStates_rank by lia.
    split; [intros [H|[[_ H]|[_ H]]]; [exact H|lia|lia]|auto]. }
  assert ((2 ≤ rank (keyStates guesses target !! ch))%nat
          ↔ Marked guesses target ch correct
            ∨ Marked guesses target ch present) as L2.
  { rewrite keyStates_rank by lia. split.
    - intros [H|[[H _]|[_ H]]]; [auto|auto|lia].
    - intros [H|H]; [auto|right; left; split; [exact H|lia]]. }
  assert ((1 ≤ rank (keyStates guesses target !! ch))%nat
          ↔ Marked guesses target ch correct
            ∨ Marked guesses target ch present
            ∨ Marked guesses target ch absent) as L1.
  { rewrite keyStates_rank by lia. split.
    - intros [H|[[H _]|[H _]]]; auto.
    - intros [H|[H|H]]; [auto|right; left|right; right]; (split; [exact H|lia]). }
  destruct (keyStates guesses target !! ch) as [[| | |]|];
    simpl rank in L1, L2, L3;
    [ assert (Marked guesses target ch correct) by (apply L3; lia)
    | assert (¬ Marked guesses target ch correct) by (rewrite <- L3; lia);
      assert (Marked guesses target ch correct
              ∨ Marked guesses target ch present) by (apply L2; lia)
    | assert (¬ (Marked guesses target ch correct
                 ∨ Marked guesses target ch present))
        by (rewrite <- L2; lia);
      assert (Marked guesses target ch correct
              ∨ Marked guesses target ch present
              ∨ Marked guesses target ch absent) by (apply L1; lia)
    | contradiction HN; reflexivity
    | assert (¬ (Marked guesses target ch correct
                 ∨ Marked guesses target ch present
                 ∨ Marked guesses target ch absent))
        by (rewrite <- L1; lia) ];
    clear L1 L2 L3; repeat split; intros;
    try discriminate; try reflexivity; try tauto.
Qed.

(** ** submitGuess and handleKey: how a session goes *)

Lemma submitGuess_Some (target dayNumber : Z) (st st' : App.State) :
  App.submitGuess target dayNumber st = Some st' ->
  App.finished st = false
  ∧ valid (validateGuess (App.currentGuess st) target) = true
  ∧ App.guesses st' = App.guesses st ++ [App.currentGuess st]
  ∧ App.currentGuess st' = []
  ∧ App.finished st' = true
  ∧ App.won st' = true
  ∧ App.stats st'
    = completeGame (App.stats st) dayNumber true
                   (length (App.guesses st) + 1).
Proof.
  unfold App.submitGuess.
  destruct (App.finished st); [discriminate|].
  destruct (valid (validateGuess (App.currentGuess st) target));
    [|discriminate].
  cbn [negb orb]. intros [= <-]. cbn [App.guesses App.currentGuess
    App.finished App.won App.stats].
  rewrite length_app. cbn [length]. auto 10.
Qed.

Lemma submitGuess_None (target dayNumber : Z) (st : App.State) :
  App.submitGuess target dayNumber st = None
  ↔ App.finished st = true
    ∨ valid (validateGuess (App.currentGuess st) target) = false.
Proof.
  unfold App.submitGuess.
  destruct (App.finished st); [split; auto|].
  destruct (valid (validateGuess (App.currentGuess st) target)); cbn [negb].
  - split; [discriminate|]. intros [H|H]; discriminate.
  - split; auto.
Qed.

(** X8.  [submitGuess] does nothing exactly when the game is finished or
    the guess is not valid; a guess it accepts is appended as a row and
    always ends the game as a win, with the statistics of a win on that
    row: no accepted guess leaves the game open, and none is a loss. *)
Theorem submitGuess_accepts_only_wins (target dayNumber : Z)
  (st : App.State) :
  (App.submitGuess target dayNumber st = None
   ↔ App.finished st = true
     ∨ valid (validateGuess (App.currentGuess st) target) = false)
  ∧ ∀ st',
      App.submitGuess target dayNumber st = Some st' ->
      App.guesses st' = App.guesses st ++ [App.currentGuess st]
      ∧ App.currentGuess st' = []
      ∧ App.finished st' = true
      ∧ App.won st' = true
      ∧ App.stats st'
        = completeGame (App.stats st) dayNumber true
                       (length (App.guesses st) + 1).
Proof.
  split; [apply submitGuess_None|].
  intros st' H. apply submitGuess_Some in H. tauto.
Qed.

Lemma includesStr_one (s : str) (c : Z) :
  includesStr s [c] = includes s c.
Proof.
  unfold includes. induction s as [|x s IH]; [reflexivity|].
  cbn [includesStr startsWith existsb]. rewrite IH.
  destruct s; rewrite andb_true_r, Z.eqb_sym; reflexivity.
Qed.

Lemma Forall_removelast {A} (P : A -> Prop) (l : list A) :
  Forall P l -> Forall P (removelast l).
Proof.
  induction 1 as [|x l Hx Hl IH]; [constructor|].
  simpl. destruct l; [constructor|]. constructor; assumption.
Qed.

Lemma removelast_length_le {A} (l : list A) :
  (length (removelast l) ≤ length l)%nat.
Proof.
  induction l as [|x l IH]; [simpl; lia|].
  simpl. destruct l; simpl in *; lia.
Qed.

(** What every key keeps: a row of at most six valid characters, and one
    of the two shapes of a session. *)
Lemma handleKey_keeps (target dayNumber : Z) (key : str) (st : App.State) :
  OneKey key ->
  (length (App.currentGuess st) ≤ 6)%nat
  ∧ Forall (fun c => includes VALID_CHARS c = true) (App.currentGuess st)
  ∧ SessionShape target dayNumber st ->
  (length (App.currentGuess (App.handleKey target dayNumber key st)) ≤ 6)%nat
  ∧ Forall (fun c => includes VALID_CHARS c = true)
           (App.currentGuess (App.handleKey target dayNumber key st))
  ∧ SessionShape target dayNumber (App.handleKey target dayNumber key st).
Proof.
  intros Hkey (Hlen & Hchars & Hshape). unfold App.handleKey.
  destruct (App.finished st) eqn:Hfin; [auto|].
  destruct Hshape as [(_ & Hwon & Hg & Hstats)|(Hf & _)]; [|congruence].
  destruct (streq key (js "Enter")) eqn:HE.
  - destruct (App.submitGuess target dayNumber st) as [st'|] eqn:Hs.
    + apply submitGuess_Some in Hs
        as (_ & Hv & Hg' & Hc' & Hf' & Hw' & Hs').
      rewrite Hc'. split; [simpl; lia|]. split; [constructor|].
      right. rewrite Hg in Hg', Hs'. rewrite Hstats in Hs'.
      split; [exact Hf'|]. split; [exact Hw'|]. split; [exact Hc'|].
      split; [|exact Hs']. exists (App.currentGuess st). auto.
    + split; [exact Hlen|]. split; [exact Hchars|]. left. auto.
  - destruct (streq key (js "Backspace")) eqn:HB.
    + cbn [App.currentGuess].
      split; [pose proof (removelast_length_le (App.currentGuess st)); lia|].
      split; [apply Forall_removelast; exact Hchars|]. left. auto.
    + destruct Hkey as [Hone|[->| ->]];
        [|rewrite streq_refl in HE; discriminate
         |rewrite streq_refl in HB; discriminate].
      destruct key as [|c [|c' key]]; try discriminate.
      rewrite includesStr_one.
      destruct (includes VALID_CHARS c) eqn:Hc; cbn [andb].
      * destruct (Nat.ltb_spec (length (App.currentGuess st))
                    EQUATION_LENGTH) as [Hlt|Hge].
        -- cbn [App.currentGuess]. rewrite length_app. cbn [length].
           unfold EQUATION_LENGTH in Hlt.
           split; [lia|]. split; [|left; auto].
           apply Forall_app. split; [exact Hchars|].
           constructor; [exact Hc|constructor].
        -- split; [exact Hlen|]. split; [exact Hchars|]. left. auto.
      * split; [exact Hlen|]. split; [exact Hchars|]. left. auto.
Qed.

(** X9.  After any sequence of keys on a first visit (each a character,
    Enter or Backspace), the row being typed has at most six characters,
    all from [VALID_CHARS], and the session is either still open with no
    row and untouched statistics, or won with exactly one row, a valid
    guess: a session never shows a second row and never ends in a loss. *)
Theorem session_shape (target dayNumber : Z) (keys : list str) :
  Forall OneKey keys ->
  (length
     (App.currentGuess
        (foldl (fun st key => App.handleKey target dayNumber key st)
               App.initial keys)) ≤ 6)%nat
  ∧ Forall (fun c => includes VALID_CHARS c = true)
      (App.currentGuess
         (foldl (fun st key => App.handleKey target dayNumber key st)
                App.initial keys))
  ∧ SessionShape target dayNumber
      (foldl (fun st key => App.handleKey target dayNumber key st)
             App.initial keys).
Proof.
  intros Hkeys.
  assert ((length (App.currentGuess App.initial) ≤ 6)%nat
          ∧ Forall (fun c => includes VALID_CHARS c = true)
                   (App.currentGuess App.initial)
          ∧ SessionShape target dayNumber App.initial) as H0.
  { split; [simpl; lia|]. split; [constructor|]. left. auto. }
  revert H0. generalize App.initial at 1 2 3 4 5 6 as st.
  induction Hkeys as [|key keys Hkey _ IH]; intros st Hst; [exact Hst|].
  cbn [foldl]. apply IH. apply handleKey_keeps; assumption.
Qed.

Lemma session_shape_witness :
  SessionShape 42 1
    (foldl (fun st key => App.handleKey 42 1 key st) App.initial
           [js "6"; js "×"; js "8"; js "Backspace"; js "7"; js "=";
            js "4"; js "2"; js "Enter"; js "1"]).
Proof.
  apply (session_shape 42 1).
  repeat constructor; solve [left; reflexivity | right; left; reflexivity
                            | right; right; reflexivity].
Defined.

(** ** completeGame: the statistics stay consistent *)




Lemma submitGuess_accepts_only_wins_witness :
  ∃ st',
    App.submitGuess 42 1
      {| App.guesses := []; App.currentGuess := js "6×7=42";
         App.finished := false; App.won := false;
         App.stats := App.stats App.initial |} = Some st'
    ∧ App.finished st' = true ∧ App.won st' = true.
Proof.
  eexists. split; [vm_compute; reflexivity|].
  split;
    eapply (submitGuess_accepts_only_wins 42 1
              {| App.guesses := []; App.currentGuess := js "6×7=42";
                 App.finished := false; App.won := false;
                 App.stats := App.stats App.initial |});
    vm_compute; reflexivity.
Defined.

(** ** generateShareText: the lines of the share text *)

Lemma String_no_newline (n : Z) : occurrences 10 (String_ n) = 0%nat.
Proof.
  unfold occurrences. apply count_occ_not_In. intros Hin.
  apply String_chars in Hin as [H|H]; [discriminate|].
  apply isDigit_range in H. lia.
Qed.

Lemma join_empty_separator (parts : list str) : join [] parts = concat parts.
Proof.
  induction parts as [|p parts IH]; [reflexivity|].
  cbn [join concat]. destruct parts as [|q parts].
  - cbn [concat]. rewrite app_nil_r. reflexivity.
  - rewrite IH. reflexivity.
Qed.

(** A row of squares: one or two code units a square, no line break, and
    no white square unless a cell is [empty]. *)
Lemma row_of_squares (result : list CellState) :
  Forall (fun r => r ≠ empty) result ->
  (length result ≤ length (concat (map emojiMap result)) ≤ 2 * length result)%nat
  ∧ occurrences 0x2B1C (concat (map emojiMap result)) = 0%nat
  ∧ occurrences 10 (concat (map emojiMap result)) = 0%nat.
Proof.
  unfold occurrences.
  induction 1 as [|r result Hr _ IH]; [simpl; lia|].
  cbn [map concat length]. rewrite length_app, !count_occ_app.
  destruct IH as (IH1 & IH2 & IH3). rewrite IH2, IH3.
  destruct r; [| | |contradiction Hr; reflexivity]; simpl; lia.
Qed.

Lemma split_join_rows (rows : list str) (rest : str) :
  rows ≠ [] ->
  Forall (fun row => occurrences 10 row = 0%nat) rows ->
  split 10 (join NEWLINE rows ++ 10 :: rest) = rows ++ split 10 rest.
Proof.
  intros Hne Hrows. induction Hrows as [|row rows Hrow Hrows IH];
    [contradiction Hne; reflexivity|].
  destruct rows as [|row' rows].
  - cbn [join app]. apply split_at_separator. exact Hrow.
  - change (join NEWLINE (row :: row' :: rows))
      with (row ++ 10 :: join NEWLINE (row' :: rows)).
    rewrite <- app_assoc. cbn [app].
    rewrite split_at_separator by exact Hrow.
    rewrite IH by discriminate. reflexivity.
Qed.

Lemma shareRows_rows (guesses : list str) (target : Z) :
  Forall (fun row =>
            (6 ≤ length row ≤ 12)%nat
            ∧ occurrences 0x2B1C row = 0%nat
            ∧ occurrences 10 row = 0%nat)
         (shareRows guesses target).
Proof.
  unfold shareRows. apply Forall_map. apply Forall_forall. intros g _.
  destruct (scoreAgainst_shape g (getCanonicalSolution target))
    as (Hl & Hf & _).
  unfold getGuessResult.
  destruct (row_of_squares _ Hf) as (H1 & H2 & H3).
  rewrite Hl in H1. auto with lia.
Qed.

Lemma shareHeader_no_newline (guesses : list str) (dayNumber : Z) :
  occurrences 10 (shareHeader guesses dayNumber) = 0%nat.
Proof.
  unfold shareHeader, occurrences. rewrite !count_occ_app.
  pose proof (String_no_newline dayNumber) as H1.
  pose proof (String_no_newline (Z.of_nat (length guesses))) as H2.
  unfold occurrences in H1, H2. rewrite H1, H2. reflexivity.
Qed.

Lemma generateShareText_unfold (guesses : list str) (target dayNumber : Z) :
  generateShareText guesses target dayNumber
  = shareHeader guesses dayNumber
    ++ 10 :: 10 :: (join NEWLINE (shareRows guesses target)
                    ++ 10 :: 10 :: js "numbrle.vercel.app").
Proof.
  unfold generateShareText, shareHeader, shareRows, NEWLINE.
  rewrite (map_ext _ (fun g => concat (map emojiMap (getGuessResult g target))))
    by (intros g; apply join_empty_separator).
  rewrite <- !app_assoc. reflexivity.
Qed.

(** X11.  Split at its line breaks, the share text of at least one guess is
    the header, an empty line, one row of squares per guess, an empty line
    and the site's address.  Each row is six squares (six to twelve code
    units) and never holds the white square. *)
Theorem generateShareText_lines (guesses : list str) (target dayNumber : Z) :
  guesses ≠ [] ->
  split 10 (generateShareText guesses target dayNumber)
  = shareHeader guesses dayNumber :: []
      :: shareRows guesses target ++ [[]; js "numbrle.vercel.app"]
  ∧ length (shareRows guesses target) = length guesses
  ∧ Forall (fun row =>
              (6 ≤ length row ≤ 12)%nat ∧ occurrences 0x2B1C row = 0%nat)
           (shareRows guesses target).
Proof.
  intros Hne. pose proof (shareRows_rows guesses target) as Hrows.
  split; [|split].
  - rewrite generateShareText_unfold.
    rewrite split_at_separator by apply shareHeader_no_newline.
    f_equal. cbn [split]. rewrite decide_True by reflexivity. f_equal.
    rewrite split_join_rows.
    + f_equal.
    + unfold shareRows. destruct guesses; [contradiction Hne; reflexivity|].
      discriminate.
    + eapply Forall_impl; [exact Hrows|].
      intros row (_ & _ & H). exact H.
  - unfold shareRows. apply length_map.
  - eapply Forall_impl; [exact Hrows|].
    intros row (H1 & H2 & _). split; assumption.
Qed.

Lemma generateShareText_lines_witness :
  length (split 10 (generateShareText [js "6×7=42"] 42 1)) = 5%nat.
Proof.
  rewrite (proj1 (generateShareText_lines [js "6×7=42"] 42 1 ltac:(discriminate))).
  reflexivity.
Defined.

(** ** Inside [SafeExpr] the values stay below 10^15 *)

Lemma room_pos (rest : list (operator * Z)) :
  Forall (fun p => 0 ≤ snd p) rest -> 1 ≤ room rest.
Proof.
  induction 1 as [|[o m] rest Hm _ IH]; [simpl; lia|].
  cbn [room]. simpl in Hm. nia.
Qed.

(** The numbers of an expression are not negative, and together they fit
    the characters of the expression. *)
Lemma spec_parse_room (expr : str) : ∀ acc n0 rest,
  spec_parse expr acc = Some (n0, rest) ->
  0 ≤ default 0 acc ->
  0 ≤ n0 ∧ Forall (fun p => 0 ≤ snd p) rest
  ∧ (n0 + 1) * room rest
    ≤ (default 0 acc + 1) * 10 ^ Z.of_nat (length expr).
Proof.
  induction expr as [|ch expr IH]; intros acc n0 rest Hp Hacc.
  - cbn [spec_parse] in Hp. destruct acc as [n|]; [|discriminate].
    injection Hp as <- <-. simpl in *. split; [lia|]. split; [constructor|lia].
  - cbn [spec_parse] in Hp. cbn [length]. rewrite Nat2Z.inj_succ.
    rewrite Z.pow_succ_r by lia.
    assert (0 < 10 ^ Z.of_nat (length expr)) as Hpow
      by (apply Z.pow_pos_nonneg; lia).
    destruct (isDigit ch) eqn:Hd.
    + apply isDigit_range in Hd.
      apply IH in Hp as (H1 & H2 & H3); [|simpl; lia].
      split; [exact H1|]. split; [exact H2|].
      eapply Z.le_trans; [exact H3|].
      change (default 0 (Some (default 0 acc * 10 + (ch - 48))))
        with (default 0 acc * 10 + (ch - 48)).
      generalize dependent (default 0 acc). intros a _ Ha.
      generalize dependent (10 ^ Z.of_nat (length expr)). intros q Hq.
      nia.
    + destruct (operator_of ch) as [o|]; [|discriminate].
      destruct acc as [n|]; [|discriminate].
      destruct (spec_parse expr None) as [[m tl]|] eqn:Hr; [|discriminate].
      injection Hp as <- <-.
      apply IH in Hr as (H1 & H2 & H3); [|simpl; lia].
      change (default 0 None) with 0 in H3.
      change (default 0 (Some n)) with n in *.
      split; [exact Hacc|].
      split; [constructor; [exact H1|exact H2]|].
      cbn [room].
      replace (10 * (m + 1) * room tl) with (10 * ((m + 1) * room tl))
        by ring.
      apply Z.mul_le_mono_nonneg_l; [lia|]. lia.
Qed.

Lemma spec_resolveMulDiv_room (rest : list (operator * Z)) : ∀ cur v flat,
  spec_resolveMulDiv cur rest = Some (v, flat) ->
  0 ≤ cur -> Forall (fun p => 0 ≤ snd p) rest ->
  0 ≤ v ∧ Forall (fun p => 0 ≤ snd p) flat
  ∧ v + sumTerms flat + 1 ≤ (cur + 1) * room rest.
Proof.
  induction rest as [|[o n] rest IH]; intros cur v flat Hr Hcur Hrest.
  - injection Hr as <- <-. simpl. split; [lia|]. split; [constructor|lia].
  - inversion Hrest as [|? ? Hn Hrest']; subst. simpl in Hn.
    pose proof (room_pos rest Hrest') as Hroom.
    destruct o as [ao|[|]]; cbn [spec_resolveMulDiv room] in *.
    + destruct (spec_resolveMulDiv n rest) as [[v' flat']|] eqn:E;
        [|discriminate].
      injection Hr as <- <-.
      apply IH in E as (H1 & H2 & H3); [|lia|exact Hrest'].
      split; [exact Hcur|]. split; [constructor; [exact H1|exact H2]|].
      unfold sumTerms in *. cbn [fold_right snd]. nia.
    + apply IH in Hr as (H1 & H2 & H3); [|nia|exact Hrest'].
      split; [exact H1|]. split; [exact H2|]. nia.
    + destruct (decide (n = 0)); [discriminate|].
      destruct (decide ((n | cur))); [|discriminate].
      assert (0 ≤ cur / n ≤ cur) as Hq.
      { split; [apply Z.div_pos; lia|].
        apply Z.div_le_upper_bound; nia. }
      apply IH in Hr as (H1 & H2 & H3); [|lia|exact Hrest'].
      split; [exact H1|]. split; [exact H2|]. nia.
Qed.

Lemma spec_foldAddSub_bound (flat : list (addop * Z)) : ∀ v,
  Forall (fun p => 0 ≤ snd p) flat ->
  v - sumTerms flat ≤ spec_foldAddSub v flat ≤ v + sumTerms flat.
Proof.
  unfold spec_foldAddSub, sumTerms.
  induction flat as [|[o w] flat IH]; intros v Hf; [simpl; lia|].
  inversion Hf as [|? ? Hw Hf']; subst. simpl in Hw.
  cbn [fold_left fold_right snd].
  destruct o; [specialize (IH (v + w) Hf')|specialize (IH (v - w) Hf')]; lia.
Qed.

(** The value of an expression of at most 15 characters is below 10^15 in
    magnitude, well inside the integers that doubles hold exactly. *)
Lemma SafeExpr_value_bound (expr : str) (v : Z) :
  SafeExpr expr -> evaluate expr = Some v ->
  - 10 ^ 15 < v < 10 ^ 15 ∧ 10 ^ 15 < 2 ^ 53.
Proof.
  unfold SafeExpr. intros Hlen He.
  rewrite evaluate_refines in He. unfold spec_evaluate in He.
  destruct (spec_parse expr None) as [[n0 rest]|] eqn:Hp; [|discriminate].
  destruct (spec_resolveMulDiv n0 rest) as [[w flat]|] eqn:Hr; [|discriminate].
  injection He as <-.
  apply spec_parse_room in Hp as (H1 & H2 & H3); [|simpl; lia].
  apply spec_resolveMulDiv_room in Hr as (H4 & H5 & H6);
    [|exact H1|exact H2].
  pose proof (spec_foldAddSub_bound flat w H5) as Hb.
  assert (10 ^ Z.of_nat (length expr) ≤ 10 ^ 15) as Hpow
    by (apply Z.pow_le_mono_r; lia).
  cbn [default] in H3.
  assert (0 ≤ sumTerms flat) as Hsum.
  { clear -H5. unfold sumTerms.
    induction H5 as [|[o x] flat Hx _ IH]; simpl in *; lia. }
  split; [lia|reflexivity].
Qed.
